(** * Empirical verification of a PAC bound: the histogram script

    A shallow embedding of [histogram.py].  The script draws
    [n_simulations] training sets from Uniform[-1,1], learns the threshold
    [a] of a one-dimensional classifier by empirical risk minimisation,
    records the gap between true and empirical risk, takes the 95th
    percentile of the gaps and compares it with a closed-form VC bound.

    Numbers.  The simulated data only goes through comparisons, minimum,
    halving and a linear interpolation; these are modelled in exact
    rational arithmetic ([Q]): every finite binary64 value is a rational,
    comparisons and minimum are exact on floats, and so is halving (up to
    underflow).  The bound uses [np.log] and [np.sqrt]; it is modelled over
    the real numbers ([R]). *)

From Stdlib Require Import String Ascii DecimalString.
From Stdlib Require DecimalN.
From Stdlib Require Import QArith Qround Qminmax Qabs Lqa.
From Stdlib Require Import ZArith Lia List Bool Arith.
From Stdlib Require Import Permutation Sorted SetoidList SetoidPermutation.
From Stdlib Require Import Reals Qreals Psatz.
Import ListNotations.

Local Open Scope Q_scope.

(** ** Parameters (lines 5-8) *)

Definition n_simulations : nat := 10000.
Definition n_samples : nat := 200.
Definition delta : Q := 5 # 100.
Definition h : Z := 1.

(** ** The random source

    [np.random] is ambient state.  It is modelled as a stream of raw
    variates in [[0,1)] together with a cursor; each call consumes as many
    variates as it returns samples. *)

Record Rng : Type := mkRng { raw : nat -> Q; cursor : nat }.

(** [np.random.uniform(low, high, size)]: [size] samples
    [low + (high - low) * u], and the advanced generator. *)
Definition np_random_uniform (low high : Q) (size : nat) (g : Rng)
  : list Q * Rng :=
  (map (fun k => low + (high - low) * raw g k) (seq (cursor g) size),
   mkRng (raw g) (cursor g + size)).

(** ** NumPy reductions used by the script *)

(** [np.min] raises [ValueError] on an empty array: [None]. *)
Definition np_min (l : list Q) : option Q :=
  match l with
  | [] => None
  | x :: t => Some (fold_left Qmin t x)
  end.

Definition np_max (l : list Q) : option Q :=
  match l with
  | [] => None
  | x :: t => Some (fold_left Qmax t x)
  end.

(** ** One trial (lines 18-38) *)

(** Boolean mask [S_x[S_x >= 0]]. *)
Definition positive_examples (S_x : list Q) : list Q :=
  filter (fun x => Qle_bool 0 x) S_x.

(** The ERM parameter [a] (lines 23-28). *)
Definition erm_a (S_x : list Q) : option Q :=
  if (0 <? length (positive_examples S_x))%nat
  then np_min (positive_examples S_x)
  else Some 1.

Definition true_risk (a : Q) : Q := a / 2.
Definition empirical_risk : Q := 0.

(** The value appended to [risk_differences] by one loop iteration. *)
Definition trial (S_x : list Q) : option Q :=
  match erm_a S_x with
  | None => None
  | Some a => Some (true_risk a - empirical_risk)
  end.

(** ** The simulation loop (lines 12-40)

    [risk_differences] is threaded as an accumulator, one [append] per
    iteration; the generator state is threaded alongside. *)
Fixpoint simulation_loop (n : nat) (size : nat) (g : Rng)
         (risk_differences : list Q) : option (list Q * Rng) :=
  match n with
  | O => Some (risk_differences, g)
  | S n' =>
      let '(S_x, g') := np_random_uniform (-1) 1 size g in
      match trial S_x with
      | None => None
      | Some d => simulation_loop n' size g' (risk_differences ++ [d])
      end
  end.

Definition simulate (n size : nat) (g : Rng) : option (list Q * Rng) :=
  simulation_loop n size g [].

(** The training set seen by trial number [i] (counting from 0). *)
Definition training_set (size : nat) (g : Rng) (i : nat) : list Q :=
  fst (np_random_uniform (-1) 1 size
         (mkRng (raw g) (cursor g + i * size))).

(** A source whose raw variates are all [1/2]: every sample of
    [uniform(-1, 1)] is then [-1 + 2 * (1/2) = 0]. *)
Definition half_source : Rng := mkRng (fun _ => 1 # 2) 0.

(** A source whose raw variates are all [1/4]: every sample is [-1/2]. *)
Definition quarter_source : Rng := mkRng (fun _ => 1 # 4) 0.

(** Range of a sample of [uniform(-1, 1)] (closed, as the specification
    states it). *)
Definition in_range (x : Q) : Prop := -1 <= x <= 1.

(** A well-formed source: raw variates in [[0,1)]. *)
Definition source_ok (g : Rng) : Prop := forall k, 0 <= raw g k < 1.

(** ** The empirical quantile (line 46) *)

(** Insertion sort, standing for the ordering of the values. *)
Fixpoint insert (x : Q) (l : list Q) : list Q :=
  match l with
  | [] => [x]
  | y :: t => if Qle_bool x y then x :: l else y :: insert x t
  end.

Fixpoint sort (l : list Q) : list Q :=
  match l with
  | [] => []
  | x :: t => insert x (sort t)
  end.

(** Linear interpolation [a + (b - a) * t]. *)
Definition lerp (a b t : Q) : Q := a + (b - a) * t.

(** Modelled from the spec: [np.percentile] is a NumPy routine whose code
    is not part of the script.  Section 4.2 fixes it as the
    linear-interpolation percentile (sort the values, interpolate at rank
    [q/100 * (N-1)]), which is NumPy's default method.  As NumPy does, a
    rank at or beyond the last index reads the last element on both sides,
    a negative rank reads the first one, and the empty array gives [nan]
    ([None]).  The interpolation is carried out in exact arithmetic. *)
Definition np_percentile (a : list Q) (q : Q) : option Q :=
  match sort a with
  | [] => None
  | arr =>
      let n := Z.of_nat (List.length arr) in
      let virtual_index := inject_Z (n - 1) * (q / 100) in
      let above := Qle_bool (inject_Z (n - 1)) virtual_index in
      let below := negb (Qle_bool 0 virtual_index) in
      let previous_index :=
        if above then (n - 1)%Z else if below then 0%Z
        else Qfloor virtual_index in
      let next_index :=
        if above then (n - 1)%Z else if below then 0%Z
        else (Qfloor virtual_index + 1)%Z in
      let gamma := virtual_index - inject_Z (Qfloor virtual_index) in
      Some (lerp (nth (Z.to_nat previous_index) arr 0)
                 (nth (Z.to_nat next_index) arr 0) gamma)
  end.

Definition quantile_95 (risk_differences : list Q) : option Q :=
  np_percentile risk_differences 95.

(** The specification's wording of the same quantity, on an already
    sorted sequence [s] of [N] values: the rank is [0.95 * (N-1)], its
    integer part [j] and fractional part [r/100] are obtained by integer
    division of [95 * (N-1)] by [100], and the result interpolates between
    the [j]-th and the [(j+1)]-th smallest value. *)
Definition rank_floor (N : nat) : nat := (95 * (N - 1)) / 100.
Definition rank_frac (N : nat) : Q :=
  Z.of_nat ((95 * (N - 1)) mod 100) # 100.
Definition spec_interpolate_95 (s : list Q) : Q :=
  let N := List.length s in
  nth (rank_floor N) s 0
  + rank_frac N * (nth (S (rank_floor N)) s 0 - nth (rank_floor N) s 0).

(** How many values of a sequence are at most, resp. below, [q]. *)
Definition count_le (q : Q) (xs : list Q) : nat :=
  List.length (filter (fun x => Qle_bool x q) xs).
Definition count_lt (q : Q) (xs : list Q) : nat :=
  List.length (filter (fun x => negb (Qle_bool q x)) xs).

(** Values pairwise different as numbers. *)
Definition pairwise_distinct (xs : list Q) : Prop := NoDupA Qeq xs.

(** The rank [0.95 * (N-1)] as [np_percentile] computes it for [q = 95]. *)
Definition virtual_index_95 (N : nat) : Q :=
  inject_Z (Z.of_nat N - 1) * (95 / 100).

(** ** The theoretical bound (lines 50-58)

    [np.log], [np.sqrt] and [np.e] are read as the natural logarithm, the
    square root and Euler's number over the reals.  They agree with NumPy
    where NumPy returns a number: [np.log] on positive arguments and
    [np.sqrt] on non-negative ones (NumPy gives [nan] or [-inf] elsewhere,
    where [ln] and [sqrt] are total). *)

Section Bound.
Local Open Scope R_scope.

Definition np_e : R := exp 1.
Definition np_log (x : R) : R := ln x.
Definition np_sqrt (x : R) : R := sqrt x.

Definition term1 (n_samples h : R) : R := h * np_log n_samples.
Definition term2 (h : R) : R := h * np_log (2 * np_e).
Definition term3 (delta : R) : R := np_log (2 / delta).

Definition complexity_term (n_samples h delta : R) : R :=
  term1 n_samples h + term2 h + term3 delta.

Definition bound_val (n_samples h delta : R) : R :=
  2 * np_sqrt ((2 / n_samples) * complexity_term n_samples h delta).

(** The formula as the specification writes it. *)
Definition spec_bound (n_samples h delta : R) : R :=
  2 * sqrt ((2 / n_samples)
            * (h * ln n_samples + h * ln (2 * exp 1) + ln (2 / delta))).
End Bound.

(** ** Fixed-point lower bounds of the exponential

    Used to evaluate the bound numerically.  Numbers are integers scaled
    by [2^80]; squaring rounds down.  [fx_exp_lower k num den] is a lower
    bound of [exp (num/den)]: it starts from [1 + (num/den) / 2^k], which is
    below [exp ((num/den) / 2^k)], and squares [k] times. *)

Definition fx_scale : Z := (2 ^ 80)%Z.
Definition fx_square (a : Z) : Z := ((a * a) / fx_scale)%Z.
Definition fx_exp_lower (k : nat) (num den : Z) : Z :=
  Nat.iter k fx_square
    (fx_scale + (num * fx_scale) / (den * 2 ^ Z.of_nat k))%Z.

(** ** Text output (lines 14, 60-63)

    Python's [str(int)], ["-" * 30] and the format [:.5f] (sign, integer
    part, a point and exactly five decimals, the value rounded to the
    nearest multiple of [10^-5], ties to even; [nan] for a NaN). *)

Definition str_of_nat (n : nat) : string :=
  NilZero.string_of_uint (Nat.to_uint n).

Definition str_of_N (n : N) : string :=
  NilZero.string_of_uint (N.to_uint n).

Definition str_repeat (s : string) (n : nat) : string :=
  String.concat "" (repeat s n).

Definition digit (d : Z) : ascii := ascii_of_nat (48 + Z.to_nat d).

Definition is_digit (c : ascii) : bool :=
  ((48 <=? nat_of_ascii c) && (nat_of_ascii c <=? 57))%nat.

(** The last [k] decimal digits of [z], padded with zeros. *)
Fixpoint fixed_digits (k : nat) (z : Z) : string :=
  match k with
  | O => EmptyString
  | S k' =>
      (fixed_digits k' (z / 10) ++ String (digit (z mod 10)) EmptyString)%string
  end.

Definition round_half_even (x : Q) : Z :=
  let f := Qfloor x in
  match Qcompare (x - inject_Z f) (1 # 2) with
  | Lt => f
  | Gt => (f + 1)%Z
  | Eq => if Z.even f then f else (f + 1)%Z
  end.

Definition format_5f (x : Q) : string :=
  let m := round_half_even (Qabs x * 100000) in
  ((if Qle_bool 0 x then "" else "-")
   ++ str_of_N (Z.to_N (m / 100000)) ++ "."
   ++ fixed_digits 5 (m mod 100000))%string.

Definition format_float_5f (x : option Q) : string :=
  match x with
  | None => "nan"
  | Some q => format_5f q
  end.

(** [print] appends one line to standard output. *)
Definition print (line : string) (stdout : list string) : list string :=
  stdout ++ [line].

(** ** The script

    The whole script up to the plot, as a function of its four constants
    and of the random source.  [to_double] stands for the rounding of the
    real value of the bound to the floating-point number that is printed.
    [None] would be an uncaught exception.

    This function describes the source for [n_simulations > 0],
    [n_samples > 0] and [0 < delta] with a non-negative radicand.  Outside
    that domain the source raises [ZeroDivisionError] ([n_samples = 0] at
    line 58, [delta = 0] at line 52), [np.percentile] has no value for an
    empty array, and [np.log] and [np.sqrt] return [nan] or [-inf] where
    [ln] and [sqrt] are total; the quantile line shows the exact
    interpolation, which floating point only approximates.  The output of
    the script proper is described by [program] below. *)

Record Outputs : Type := mkOutputs {
  out_stdout : list string;
  out_risk_differences : list Q;
  out_quantile_95 : option Q;
  out_bound_val : R
}.

Definition main (to_double : R -> Q)
           (n_simulations n_samples : nat) (delta : Q) (h : Z) (g : Rng)
  : option Outputs :=
  let stdout :=
    print ("Running " ++ str_of_nat n_simulations ++ " simulations...")%string
          [] in
  match simulate n_simulations n_samples g with
  | None => None
  | Some (risk_differences, _) =>
      let quantile_95 := np_percentile risk_differences 95 in
      let bound_val := bound_val (INR n_samples) (IZR h) (Q2R delta) in
      let stdout := print (str_repeat "-" 30) stdout in
      let stdout :=
        print ("Empirical 95% Quantile: "
               ++ format_float_5f quantile_95)%string stdout in
      let stdout :=
        print ("Theoretical PAC Bound:  "
               ++ format_5f (to_double bound_val))%string stdout in
      let stdout := print (str_repeat "-" 30) stdout in
      Some (mkOutputs stdout risk_differences quantile_95 bound_val)
  end.

(** A value printed with five decimals: some text, a point, and exactly
    five digits. *)
Definition five_decimals (v : string) : Prop :=
  exists pre frac,
    v = (pre ++ "." ++ frac)%string /\ String.length frac = 5%nat /\
    forall c, In c (list_ascii_of_string frac) -> is_digit c = true.

(** ** Reading a printed value back

    [parse_5f] reads a text of the shape produced by [:.5f] (an optional
    minus sign, one or more digits, a point, exactly five digits) and
    returns the number it denotes. *)

Definition digit_value (c : ascii) : option Z :=
  if is_digit c then Some (Z.of_nat (nat_of_ascii c) - 48)%Z else None.

Fixpoint digits_value (acc : Z) (s : string) : option Z :=
  match s with
  | EmptyString => Some acc
  | String c s' =>
      match digit_value c with
      | None => None
      | Some d => digits_value (10 * acc + d)%Z s'
      end
  end.

Fixpoint split_at_point (s : string) : option (string * string) :=
  match s with
  | EmptyString => None
  | String c s' =>
      if Ascii.eqb c "." then Some (EmptyString, s')
      else match split_at_point s' with
           | None => None
           | Some (a, b) => Some (String c a, b)
           end
  end.

Definition parse_unsigned_5f (s : string) : option Q :=
  match split_at_point s with
  | None => None
  | Some (ip, fp) =>
      if ((0 <? String.length ip) && (String.length fp =? 5))%nat
      then match digits_value 0 ip, digits_value 0 fp with
           | Some i, Some f => Some ((i * 100000 + f) # 100000)
           | _, _ => None
           end
      else None
  end.

Definition parse_5f (s : string) : option Q :=
  match s with
  | String c s' =>
      if Ascii.eqb c "-"
      then match parse_unsigned_5f s' with
           | Some v => Some (- v)
           | None => None
           end
      else parse_unsigned_5f s
  | EmptyString => None
  end.

(** ** The script with its own constants

    The script up to the plot, with the constants of lines 5-8 as the
    source has them (globals, not arguments).  The two numbers it prints
    are floating-point results: [np_percentile_float] stands for the value
    [np.percentile(risk_differences, 95)] returns in floating point and
    [to_double] for the floating-point value obtained for the bound; how
    close they are to the exact quantile and to the real value of the
    bound is a hypothesis of the statements about the output.  The result
    is the list of lines written to standard output; [None] would be an
    uncaught exception. *)
Definition program (np_percentile_float : list Q -> Q) (to_double : R -> Q)
           (g : Rng) : option (list string) :=
  let stdout :=
    print ("Running " ++ str_of_nat n_simulations ++ " simulations...")%string
          [] in
  match simulate n_simulations n_samples g with
  | None => None
  | Some (risk_differences, _) =>
      let quantile_95 := np_percentile_float risk_differences in
      let bound_val :=
        to_double (bound_val (INR n_samples) (IZR h) (Q2R delta)) in
      let stdout := print (str_repeat "-" 30) stdout in
      let stdout :=
        print ("Empirical 95% Quantile: " ++ format_5f quantile_95)%string
              stdout in
      let stdout :=
        print ("Theoretical PAC Bound:  " ++ format_5f bound_val)%string
              stdout in
      let stdout := print (str_repeat "-" 30) stdout in
      Some stdout
  end.

(** * Properties *)

(** ** Minimum and maximum of a list *)

Lemma Qmin_cases (x y : Q) : Qmin x y = x \/ Qmin x y = y.
Proof.
  unfold Qmin, GenericMinMax.gmin. destruct (x ?= y); auto.
Qed.

Lemma Qmax_cases (x y : Q) : Qmax x y = x \/ Qmax x y = y.
Proof.
  unfold Qmax, GenericMinMax.gmax. destruct (x ?= y); auto.
Qed.

Lemma fold_min_in (t : list Q) (x : Q) : In (fold_left Qmin t x) (x :: t).
Proof.
  revert x. induction t as [|y t IH]; intros x; simpl.
  - now left.
  - destruct (IH (Qmin x y)) as [E | HIn].
    + destruct (Qmin_cases x y) as [E' | E']; [left | right; left];
        rewrite <- E; symmetry; exact E'.
    + right. right. exact HIn.
Qed.

Lemma fold_min_le_init (t : list Q) (x : Q) : fold_left Qmin t x <= x.
Proof.
  revert x. induction t as [|y t IH]; intros x; simpl.
  - apply Qle_refl.
  - eapply Qle_trans; [apply IH | apply Q.le_min_l].
Qed.

Lemma fold_min_le (t : list Q) (x z : Q) :
  In z (x :: t) -> fold_left Qmin t x <= z.
Proof.
  revert x. induction t as [|y t IH]; intros x [E | HIn]; simpl.
  - subst. apply Qle_refl.
  - destruct HIn.
  - subst. eapply Qle_trans; [apply fold_min_le_init | apply Q.le_min_l].
  - destruct HIn as [E | HIn].
    + subst. eapply Qle_trans; [apply fold_min_le_init | apply Q.le_min_r].
    + apply IH. now right.
Qed.

Lemma fold_max_in (t : list Q) (x : Q) : In (fold_left Qmax t x) (x :: t).
Proof.
  revert x. induction t as [|y t IH]; intros x; simpl.
  - now left.
  - destruct (IH (Qmax x y)) as [E | HIn].
    + destruct (Qmax_cases x y) as [E' | E']; [left | right; left];
        rewrite <- E; symmetry; exact E'.
    + right. right. exact HIn.
Qed.

Lemma fold_max_ge_init (t : list Q) (x : Q) : x <= fold_left Qmax t x.
Proof.
  revert x. induction t as [|y t IH]; intros x; simpl.
  - apply Qle_refl.
  - eapply Qle_trans; [apply Q.le_max_l | apply IH].
Qed.

Lemma fold_max_ge (t : list Q) (x z : Q) :
  In z (x :: t) -> z <= fold_left Qmax t x.
Proof.
  revert x. induction t as [|y t IH]; intros x [E | HIn]; simpl.
  - subst. apply Qle_refl.
  - destruct HIn.
  - subst. eapply Qle_trans; [apply Q.le_max_l | apply fold_max_ge_init].
  - destruct HIn as [E | HIn].
    + subst. eapply Qle_trans; [apply Q.le_max_r | apply fold_max_ge_init].
    + apply IH. now right.
Qed.

Lemma np_min_spec (l : list Q) (m : Q) :
  np_min l = Some m -> In m l /\ forall z, In z l -> m <= z.
Proof.
  destruct l as [|x t]; simpl; [discriminate|].
  intros E. injection E as <-. split.
  - apply fold_min_in.
  - intros z Hz. now apply fold_min_le.
Qed.

Lemma np_max_spec (l : list Q) (m : Q) :
  np_max l = Some m -> In m l /\ forall z, In z l -> z <= m.
Proof.
  destruct l as [|x t]; simpl; [discriminate|].
  intros E. injection E as <-. split.
  - apply fold_max_in.
  - intros z Hz. now apply fold_max_ge.
Qed.

Lemma np_min_total (l : list Q) : l <> [] -> exists m, np_min l = Some m.
Proof.
  destruct l as [|x t]; [congruence|]. intros _. simpl. eauto.
Qed.

(** ** One trial *)

Lemma positive_examples_In (S_x : list Q) (x : Q) :
  In x (positive_examples S_x) <-> In x S_x /\ 0 <= x.
Proof.
  unfold positive_examples. rewrite filter_In, Qle_bool_iff. tauto.
Qed.

Lemma erm_a_nonempty (S_x : list Q) :
  positive_examples S_x <> [] ->
  erm_a S_x = np_min (positive_examples S_x).
Proof.
  unfold erm_a. destruct (positive_examples S_x); [congruence|]. reflexivity.
Qed.

Lemma erm_a_empty (S_x : list Q) :
  positive_examples S_x = [] -> erm_a S_x = Some 1.
Proof.
  unfold erm_a. intros ->. reflexivity.
Qed.

Lemma erm_a_total (S_x : list Q) : exists a, erm_a S_x = Some a.
Proof.
  destruct (positive_examples S_x) as [|x t] eqn:E.
  - exists 1. now apply erm_a_empty.
  - rewrite erm_a_nonempty by congruence. rewrite E. simpl. eauto.
Qed.

Lemma trial_total (S_x : list Q) : exists d, trial S_x = Some d.
Proof.
  unfold trial. destruct (erm_a_total S_x) as [a ->]. eauto.
Qed.

Lemma trial_of_erm (S_x : list Q) (a : Q) :
  erm_a S_x = Some a ->
  exists d, trial S_x = Some d /\ d == a / 2.
Proof.
  intros E. unfold trial. rewrite E. eexists; split; [reflexivity|].
  unfold true_risk, empirical_risk. ring.
Qed.

(** C1.  When the training set holds at least one non-negative value, the
    ERM parameter [a] is the minimum of exactly the non-negative values of
    the set (it is one of them and is below each of them), and the trial
    returns the risk gap [a/2], which is the true risk [a/2] minus the
    empirical risk [0]. *)
Theorem erm_is_min_of_nonnegative (S_x : list Q) :
  (exists x, In x S_x /\ 0 <= x) ->
  exists a,
    erm_a S_x = Some a /\
    np_min (positive_examples S_x) = Some a /\
    (In a S_x /\ 0 <= a) /\
    (forall x, In x S_x -> 0 <= x -> a <= x) /\
    exists d, trial S_x = Some d /\ d == a / 2 /\
              d == true_risk a - empirical_risk /\ empirical_risk == 0.
Proof.
  intros (x & Hx & Hx0).
  assert (Hne : positive_examples S_x <> []).
  { intros E. assert (HIn : In x (positive_examples S_x))
      by (apply positive_examples_In; split; assumption).
    rewrite E in HIn. destruct HIn. }
  destruct (np_min_total _ Hne) as [a Ea].
  exists a. rewrite (erm_a_nonempty _ Hne).
  destruct (np_min_spec _ _ Ea) as [HIn Hle].
  split; [exact Ea|]. split; [exact Ea|].
  split; [now apply positive_examples_In|].
  split.
  - intros z Hz Hz0. apply Hle. now apply positive_examples_In.
  - unfold trial. rewrite (erm_a_nonempty _ Hne), Ea.
    eexists. split; [reflexivity|].
    unfold true_risk, empirical_risk. repeat split; ring.
Qed.

Lemma erm_is_min_of_nonnegative_witness :
  exists a,
    erm_a [(-1 # 2); (3 # 4); (1 # 4); (-1 # 8)] = Some a /\
    np_min (positive_examples [(-1 # 2); (3 # 4); (1 # 4); (-1 # 8)]) = Some a /\
    (In a [(-1 # 2); (3 # 4); (1 # 4); (-1 # 8)] /\ 0 <= a) /\
    (forall x, In x [(-1 # 2); (3 # 4); (1 # 4); (-1 # 8)] -> 0 <= x -> a <= x) /\
    exists d, trial [(-1 # 2); (3 # 4); (1 # 4); (-1 # 8)] = Some d /\ d == a / 2 /\
              d == true_risk a - empirical_risk /\ empirical_risk == 0.
Proof.
  apply (erm_is_min_of_nonnegative [(-1 # 2); (3 # 4); (1 # 4); (-1 # 8)]).
  exists (3 # 4). split; [simpl; auto | discriminate].
Defined.

(** C4.  When every draw of the training set is negative, no value passes
    the mask, [a] is the fallback [1.0] and the trial returns the risk gap
    [1/2]; the trial returns a value, it does not raise. *)
Theorem fallback_when_all_negative (S_x : list Q) :
  Forall (fun x => x < 0) S_x ->
  positive_examples S_x = [] /\
  erm_a S_x = Some 1 /\
  exists d, trial S_x = Some d /\ d == 1 # 2.
Proof.
  intros Hneg.
  assert (E : positive_examples S_x = []).
  { unfold positive_examples. induction Hneg as [|x l Hx _ IH]; simpl; auto.
    destruct (Qle_bool 0 x) eqn:B; [|exact IH].
    apply Qle_bool_iff in B. cbv beta in Hx. lra. }
  split; [exact E|]. split; [now apply erm_a_empty|].
  unfold trial. rewrite (erm_a_empty _ E). eexists. split; [reflexivity|].
  reflexivity.
Qed.

Lemma fallback_when_all_negative_witness :
  positive_examples [(-1 # 2); (-1 # 1); (-3 # 7)] = [] /\
  erm_a [(-1 # 2); (-1 # 1); (-3 # 7)] = Some 1 /\
  exists d, trial [(-1 # 2); (-1 # 1); (-3 # 7)] = Some d /\ d == 1 # 2.
Proof.
  apply (fallback_when_all_negative [(-1 # 2); (-1 # 1); (-3 # 7)]).
  repeat constructor.
Defined.

(** ** The random source *)

Lemma uniform_in_range (size : nat) (g : Rng) :
  source_ok g -> Forall in_range (fst (np_random_uniform (-1) 1 size g)).
Proof.
  intros Hg. unfold np_random_uniform. simpl.
  apply Forall_forall. intros x Hx. apply in_map_iff in Hx as (k & <- & _).
  specialize (Hg k). unfold in_range. lra.
Qed.

Lemma source_ok_advance (g : Rng) (c : nat) :
  source_ok g -> source_ok (mkRng (raw g) c).
Proof. intros Hg k. apply Hg. Qed.

Lemma training_set_in_range (size : nat) (g : Rng) (i : nat) :
  source_ok g -> Forall in_range (training_set size g i).
Proof.
  intros Hg. unfold training_set. apply uniform_in_range.
  now apply source_ok_advance.
Qed.

(** ** Range of the ERM parameter and of the risk gap *)

Lemma erm_a_bounds (S_x : list Q) (a : Q) :
  Forall in_range S_x -> erm_a S_x = Some a -> 0 <= a <= 1.
Proof.
  intros Hr E. destruct (positive_examples S_x) as [|x t] eqn:Ep.
  - rewrite (erm_a_empty _ Ep) in E. injection E as <-. lra.
  - rewrite erm_a_nonempty in E by congruence.
    apply np_min_spec in E as [HIn _].
    apply positive_examples_In in HIn as [HIn H0].
    rewrite Forall_forall in Hr. specialize (Hr _ HIn). unfold in_range in Hr.
    lra.
Qed.

Lemma erm_a_positive (S_x : list Q) (a : Q) :
  (forall x, In x S_x -> ~ x == 0) -> erm_a S_x = Some a -> 0 < a.
Proof.
  intros Hnz E. destruct (positive_examples S_x) as [|x t] eqn:Ep.
  - rewrite (erm_a_empty _ Ep) in E. injection E as <-. lra.
  - rewrite erm_a_nonempty in E by congruence.
    apply np_min_spec in E as [HIn _].
    apply positive_examples_In in HIn as [HIn H0].
    specialize (Hnz _ HIn).
    destruct (Qlt_le_dec 0 a) as [Hlt | Hle]; [exact Hlt|].
    exfalso. apply Hnz. lra.
Qed.

(** C3 (as stated) fails: a draw may be exactly [0], it passes the mask
    [S_x >= 0], and then [a] is [0], not a positive number.  Here each of
    the [n_samples] draws of the trial is [0]. *)
Lemma erm_a_strictly_positive_counterexample :
  ~ (forall S_x a d,
        Forall in_range S_x -> erm_a S_x = Some a -> trial S_x = Some d ->
        (0 < a /\ a <= 1) /\ (0 < d /\ d <= 1 # 2)).
Proof.
  intros H.
  destruct (H (training_set n_samples half_source 0) (0 # 2) (0 # 4))
    as [[Ha _] _].
  - apply training_set_in_range. intros k. simpl. lra.
  - vm_compute. reflexivity.
  - vm_compute. reflexivity.
  - lra.
Qed.

(** C3 (amended).  For every trial whose draws lie in [[-1,1]], the ERM
    parameter satisfies [0 <= a <= 1] and the risk gap, equal to the true
    risk [a/2], satisfies [0 <= gap <= 1/2]; both are strictly positive
    when no draw is exactly [0]. *)
Theorem erm_a_in_unit_interval (S_x : list Q) :
  Forall in_range S_x ->
  exists a d,
    erm_a S_x = Some a /\ trial S_x = Some d /\ d == true_risk a /\
    0 <= a <= 1 /\ 0 <= d <= 1 # 2 /\
    ((forall x, In x S_x -> ~ x == 0) -> 0 < a /\ 0 < d).
Proof.
  intros Hr. destruct (erm_a_total S_x) as [a Ea].
  destruct (trial_of_erm _ _ Ea) as (d & Ed & Hd).
  exists a, d. pose proof (erm_a_bounds _ _ Hr Ea) as Hb.
  assert (Hd' : d == true_risk a) by (unfold true_risk; exact Hd).
  unfold Qdiv in Hd. change (/ 2) with (1 # 2) in Hd.
  split; [exact Ea|]. split; [exact Ed|]. split; [exact Hd'|].
  split; [exact Hb|]. split; [lra|].
  intros Hnz. pose proof (erm_a_positive S_x a Hnz Ea). lra.
Qed.

Lemma erm_a_in_unit_interval_witness :
  exists a d,
    erm_a [(-1 # 2); (3 # 4); (1 # 4)] = Some a /\
    trial [(-1 # 2); (3 # 4); (1 # 4)] = Some d /\ d == true_risk a /\
    0 <= a <= 1 /\ 0 <= d <= 1 # 2 /\ (0 < a /\ 0 < d).
Proof.
  destruct (erm_a_in_unit_interval [(-1 # 2); (3 # 4); (1 # 4)])
    as (a & d & Ea & Ed & Hd & Ha & Hr & Hpos).
  - repeat constructor; simpl; discriminate.
  - exists a, d. repeat (split; [assumption|]).
    apply Hpos. simpl. intros x H E.
    decompose [or] H; try contradiction; subst x;
      vm_compute in E; discriminate E.
Defined.

(** ** The simulation loop *)

Lemma training_set_0 (size : nat) (g : Rng) :
  fst (np_random_uniform (-1) 1 size g) = training_set size g 0.
Proof.
  unfold training_set, np_random_uniform. simpl. now rewrite Nat.add_0_r.
Qed.

Lemma training_set_shift (size : nat) (g : Rng) (i : nat) :
  training_set size (mkRng (raw g) (cursor g + size)) i
  = training_set size g (S i).
Proof.
  unfold training_set, np_random_uniform. simpl.
  replace (cursor g + size + i * size)%nat
    with (cursor g + (size + i * size))%nat by lia.
  reflexivity.
Qed.

(** The loop never raises; it appends one value per iteration, the value
    of the trial run on that iteration's training set, and advances the
    generator by [size] variates per iteration. *)
Lemma simulation_loop_spec (n size : nat) :
  forall (g : Rng) (acc : list Q),
  exists rd,
    simulation_loop n size g acc
      = Some (acc ++ rd, mkRng (raw g) (cursor g + n * size)) /\
    List.length rd = n /\
    forall i, (i < n)%nat ->
      exists d, nth_error rd i = Some d /\
                trial (training_set size g i) = Some d.
Proof.
  induction n as [|n IH]; intros g acc.
  - exists []. simpl. rewrite app_nil_r, Nat.add_0_r. destruct g as [r c].
    simpl. split; [reflexivity|]. split; [reflexivity|]. intros i Hi. lia.
  - cbn [simulation_loop].
    destruct (np_random_uniform (-1) 1 size g) as [S_x g'] eqn:Eu.
    assert (ES : S_x = training_set size g 0)
      by (rewrite <- training_set_0, Eu; reflexivity).
    assert (Eg : g' = mkRng (raw g) (cursor g + size))
      by (unfold np_random_uniform in Eu; congruence).
    destruct (trial_total S_x) as [d Ed]. rewrite Ed.
    destruct (IH g' (acc ++ [d])) as (rd & Hrun & Hlen & Hnth).
    exists (d :: rd). split; [|split].
    + rewrite Hrun, <- app_assoc. simpl. subst g'. simpl.
      do 3 f_equal. lia.
    + simpl. now rewrite Hlen.
    + intros [|i] Hi; simpl.
      * exists d. split; [reflexivity|]. now rewrite <- ES.
      * destruct (Hnth i) as (d' & Hd' & Ht); [lia|].
        exists d'. split; [exact Hd'|].
        rewrite <- training_set_shift, <- Eg. exact Ht.
Qed.

Lemma simulate_length_aux (n size : nat) (g : Rng) :
  exists rd g',
    simulate n size g = Some (rd, g') /\
    List.length rd = n /\
    forall i, (i < n)%nat ->
      exists d, nth_error rd i = Some d /\
                trial (training_set size g i) = Some d.
Proof.
  destruct (simulation_loop_spec n size g []) as (rd & Hrun & Hlen & Hnth).
  exists rd, (mkRng (raw g) (cursor g + n * size)). unfold simulate.
  rewrite Hrun. auto.
Qed.

Lemma erm_a_in_range_aux (S_x : list Q) :
  Forall in_range S_x -> exists a, erm_a S_x = Some a /\ 0 <= a <= 1.
Proof.
  intros Hr. destruct (erm_a_total S_x) as [a Ea]. exists a.
  split; [exact Ea | now apply (erm_a_bounds S_x)].
Qed.

(** C8.  The simulator performs exactly [n] trials: it returns (it never
    raises) an ordered sequence of exactly [n] risk gaps whose [i]-th
    entry is the value of the trial run on the [i]-th training set, and it
    has consumed exactly [n] training sets of [size] draws each. *)
Theorem simulate_one_gap_per_trial (n size : nat) (g : Rng) :
  exists risk_differences g',
    simulate n size g = Some (risk_differences, g') /\
    List.length risk_differences = n /\
    cursor g' = (cursor g + n * size)%nat /\
    forall i, (i < n)%nat ->
      exists d, nth_error risk_differences i = Some d /\
                trial (training_set size g i) = Some d.
Proof.
  destruct (simulation_loop_spec n size g []) as (rd & Hrun & Hlen & Hnth).
  exists rd, (mkRng (raw g) (cursor g + n * size)). unfold simulate.
  rewrite Hrun. simpl. auto.
Qed.

(** C10.  With a well-formed random source, every risk gap the simulator
    produces lies in the closed interval [[0, 1/2]].  Both ends are
    attained: a training set whose smallest non-negative draw is exactly
    [0] gives [a = 0] and the gap [0]; a training set without any
    non-negative draw takes the fallback and gives the gap [1/2]. *)
Theorem risk_gap_in_closed_interval (n size : nat) (g : Rng) :
  source_ok g ->
  (exists risk_differences g',
      simulate n size g = Some (risk_differences, g') /\
      Forall (fun d => 0 <= d <= 1 # 2) risk_differences) /\
  (exists S_x a d,
      Forall in_range S_x /\ np_min (positive_examples S_x) = Some a /\
      a == 0 /\ erm_a S_x = Some a /\ trial S_x = Some d /\ d == 0) /\
  (forall S_x, positive_examples S_x = [] ->
      exists d, trial S_x = Some d /\ d == 1 # 2).
Proof.
  intros Hg. split; [|split].
  - destruct (simulate_length_aux n size g) as (rd & g' & Hrun & Hlen & Hnth).
    exists rd, g'. split; [exact Hrun|].
    apply Forall_forall. intros d Hd.
    apply In_nth_error in Hd as [i Hi].
    assert (Hlt : (i < n)%nat).
    { rewrite <- Hlen. apply nth_error_Some. congruence. }
    destruct (Hnth i Hlt) as (d' & Hd' & Ht).
    assert (d' = d) by congruence. subst d'.
    destruct (erm_a_in_range_aux (training_set size g i)) as (a & Ea & Hb).
    { now apply training_set_in_range. }
    destruct (trial_of_erm _ _ Ea) as (d' & Ed' & Hd2).
    assert (d' = d) by congruence. subst d'.
    unfold Qdiv in Hd2. change (/ 2) with (1 # 2) in Hd2. lra.
  - exists (training_set n_samples half_source 0), (0 # 2), (0 # 4).
    split; [|vm_compute; intuition reflexivity].
    apply training_set_in_range. intros k. simpl. lra.
  - intros S_x E. unfold trial. rewrite (erm_a_empty _ E).
    eexists. split; reflexivity.
Qed.

Lemma risk_gap_in_closed_interval_witness :
  (exists risk_differences g',
      simulate 3 4 quarter_source = Some (risk_differences, g') /\
      Forall (fun d => 0 <= d <= 1 # 2) risk_differences) /\
  (exists S_x a d,
      Forall in_range S_x /\ np_min (positive_examples S_x) = Some a /\
      a == 0 /\ erm_a S_x = Some a /\ trial S_x = Some d /\ d == 0) /\
  (forall S_x, positive_examples S_x = [] ->
      exists d, trial S_x = Some d /\ d == 1 # 2).
Proof.
  apply (risk_gap_in_closed_interval 3 4 quarter_source).
  intros k. simpl. split; [discriminate | reflexivity].
Defined.

(** ** Sorting *)

Lemma insert_perm (x : Q) (l : list Q) : Permutation (insert x l) (x :: l).
Proof.
  induction l as [|y t IH]; simpl.
  - apply Permutation_refl.
  - destruct (Qle_bool x y).
    + apply Permutation_refl.
    + eapply Permutation_trans; [apply perm_skip, IH | apply perm_swap].
Qed.

Lemma sort_perm (l : list Q) : Permutation (sort l) l.
Proof.
  induction l as [|x t IH]; simpl.
  - apply perm_nil.
  - eapply Permutation_trans; [apply insert_perm | apply perm_skip, IH].
Qed.

Lemma sort_length (l : list Q) : List.length (sort l) = List.length l.
Proof. apply Permutation_length, sort_perm. Qed.

Lemma insert_sorted (x : Q) (l : list Q) :
  StronglySorted Qle l -> StronglySorted Qle (insert x l).
Proof.
  induction 1 as [|y t Hs IH Hall]; simpl.
  - repeat constructor.
  - destruct (Qle_bool x y) eqn:B.
    + apply Qle_bool_iff in B. constructor; [now constructor|].
      constructor; [exact B|].
      eapply Forall_impl; [|exact Hall]. intros z Hz. cbv beta in *. lra.
    + assert (Hyx : y <= x).
      { destruct (Qlt_le_dec y x) as [Hlt | Hle]; [lra|].
        apply Qle_bool_iff in Hle. congruence. }
      constructor; [exact IH|].
      apply (Permutation_Forall (Permutation_sym (insert_perm x t))).
      constructor; assumption.
Qed.

Lemma sort_sorted (l : list Q) : StronglySorted Qle (sort l).
Proof.
  induction l as [|x t IH]; simpl; [constructor | now apply insert_sorted].
Qed.

(** In a sorted list the first [k+1] values are at most the [k]-th one and
    the values from position [k] on are at least the [k]-th one. *)
Lemma sorted_split (l : list Q) :
  StronglySorted Qle l ->
  forall k, (k < List.length l)%nat ->
    Forall (fun x => x <= nth k l 0) (firstn (S k) l) /\
    Forall (fun x => nth k l 0 <= x) (skipn k l).
Proof.
  induction 1 as [|a t Hs IH Hall]; intros k Hk; simpl in Hk; [lia|].
  destruct k as [|k].
  - simpl. split.
    + repeat constructor. apply Qle_refl.
    + constructor; [apply Qle_refl | exact Hall].
  - destruct (IH k) as [H1 H2]; [lia|]. split.
    + change (Forall (fun x => x <= nth k t 0) (a :: firstn (S k) t)).
      constructor; [|exact H1].
      rewrite Forall_forall in Hall. apply Hall, nth_In. lia.
    + exact H2.
Qed.

Lemma sorted_nth_le (l : list Q) (i j : nat) :
  StronglySorted Qle l -> (i <= j)%nat -> (j < List.length l)%nat ->
  nth i l 0 <= nth j l 0.
Proof.
  intros Hs Hij Hj. destruct (sorted_split l Hs j Hj) as [H1 _].
  rewrite Forall_forall in H1. apply H1.
  rewrite <- (firstn_skipn (S j) l) at 1.
  rewrite app_nth1 by (rewrite length_firstn; lia).
  apply nth_In. rewrite length_firstn. lia.
Qed.

Lemma sorted_distinct_strict (l : list Q) :
  StronglySorted Qle l -> NoDupA Qeq l -> StronglySorted Qlt l.
Proof.
  induction 1 as [|a t Hs IH Hall]; intros Hnd; [constructor|].
  inversion Hnd as [|? ? Hnot Hnd']; subst.
  constructor; [now apply IH|].
  rewrite Forall_forall in Hall |- *. intros x Hx.
  specialize (Hall _ Hx).
  destruct (Qlt_le_dec a x) as [Hlt | Hle]; [exact Hlt|].
  exfalso. apply Hnot. apply InA_alt. exists x. split; [lra | exact Hx].
Qed.

Lemma strict_sorted_nth_lt (l : list Q) :
  StronglySorted Qlt l ->
  forall i j, (i < j)%nat -> (j < List.length l)%nat ->
    nth i l 0 < nth j l 0.
Proof.
  induction 1 as [|a t Hs IH Hall]; intros i j Hij Hj; simpl in Hj; [lia|].
  destruct j as [|j]; [lia|]. destruct i as [|i]; simpl.
  - rewrite Forall_forall in Hall. apply Hall, nth_In. lia.
  - apply IH; lia.
Qed.

Lemma sort_distinct (xs : list Q) :
  pairwise_distinct xs -> StronglySorted Qlt (sort xs).
Proof.
  intros Hd. apply sorted_distinct_strict; [apply sort_sorted|].
  eapply (PermutationA_preserves_NoDupA Q_Setoid); [|exact Hd].
  apply Permutation_PermutationA; [apply Q_Setoid|].
  apply Permutation_sym, sort_perm.
Qed.

(** ** The rank of the 95th percentile *)

Lemma virtual_index_shape (N : nat) :
  virtual_index_95 N = ((Z.of_nat N - 1) * 95 # 100).
Proof. reflexivity. Qed.

Lemma virtual_index_floor (N : nat) :
  (1 <= N)%nat -> Qfloor (virtual_index_95 N) = Z.of_nat (rank_floor N).
Proof.
  intros HN. rewrite virtual_index_shape. unfold rank_floor, Qfloor.
  rewrite Nat2Z.inj_div, Nat2Z.inj_mul, Nat2Z.inj_sub by exact HN.
  f_equal. lia.
Qed.

Lemma virtual_index_frac (N : nat) :
  (1 <= N)%nat ->
  virtual_index_95 N - inject_Z (Qfloor (virtual_index_95 N)) == rank_frac N.
Proof.
  intros HN. rewrite (virtual_index_floor N HN).
  rewrite virtual_index_shape. unfold rank_frac, rank_floor.
  rewrite Nat2Z.inj_div, Nat2Z.inj_mul, Nat2Z.inj_sub by exact HN.
  rewrite Nat2Z.inj_mod, Nat2Z.inj_mul, Nat2Z.inj_sub by exact HN.
  change (Z.of_nat 95) with 95%Z. change (Z.of_nat 100) with 100%Z.
  change (Z.of_nat 1) with 1%Z.
  pose proof (Z.div_mod (95 * (Z.of_nat N - 1)) 100 ltac:(lia)) as E.
  unfold Qeq, Qminus, Qplus, Qopp, inject_Z. 
  cbn [Qnum Qden]. lia.
Qed.

Lemma rank_frac_bounds (N : nat) : 0 <= rank_frac N /\ rank_frac N < 1.
Proof.
  unfold rank_frac. pose proof (Nat.mod_upper_bound (95 * (N - 1)) 100 ltac:(lia)).
  unfold Qle, Qlt. cbn [Qnum Qden]. lia.
Qed.

Lemma rank_floor_next (N : nat) : (2 <= N)%nat -> (S (rank_floor N) < N)%nat.
Proof.
  intros HN. unfold rank_floor.
  pose proof (Nat.div_mod_eq (95 * (N - 1)) 100).
  pose proof (Nat.mod_upper_bound (95 * (N - 1)) 100 ltac:(lia)). lia.
Qed.

Lemma rank_frac_pos_at_0 (N : nat) :
  (2 <= N)%nat -> rank_floor N = 0%nat -> 0 < rank_frac N.
Proof.
  intros HN E. unfold rank_floor in E. unfold rank_frac.
  pose proof (Nat.div_mod_eq (95 * (N - 1)) 100).
  unfold Qlt. cbn [Qnum Qden]. lia.
Qed.

Lemma virtual_index_above (N : nat) :
  (1 <= N)%nat ->
  Qle_bool (inject_Z (Z.of_nat N - 1)) (virtual_index_95 N) = (N =? 1)%nat.
Proof.
  intros HN. rewrite virtual_index_shape.
  destruct (Nat.eqb_spec N 1) as [E | E].
  - apply Qle_bool_iff. subst. unfold Qle. cbn. lia.
  - destruct (Qle_bool _ _) eqn:B; [|reflexivity].
    apply Qle_bool_iff in B. unfold Qle, inject_Z in B. cbn [Qnum Qden] in B. lia.
Qed.

Lemma virtual_index_nonneg (N : nat) :
  (1 <= N)%nat -> Qle_bool 0 (virtual_index_95 N) = true.
Proof.
  intros HN. rewrite virtual_index_shape. apply Qle_bool_iff.
  unfold Qle. cbn [Qnum Qden]. lia.
Qed.

Lemma quantile_95_value (xs : list Q) :
  xs <> [] ->
  let N := List.length xs in
  let s := sort xs in
  exists q,
    quantile_95 xs = Some q /\
    q == lerp (nth (rank_floor N) s 0)
              (nth (Nat.min (S (rank_floor N)) (N - 1)) s 0) (rank_frac N).
Proof.
  intros Hne N s. unfold quantile_95, np_percentile.
  assert (HL : List.length s = N) by apply sort_length.
  assert (HN : (1 <= N)%nat).
  { subst N. destruct xs; [congruence | simpl; lia]. }
  fold s. destruct s as [|x t] eqn:Es; [simpl in HL; lia|].
  rewrite <- Es in *. clear Es. cbv zeta. rewrite HL.
  fold (virtual_index_95 N).
  rewrite (virtual_index_above N HN), (virtual_index_nonneg N HN).
  rewrite (virtual_index_floor N HN). cbn [negb].
  eexists. split; [reflexivity|].
  pose proof (virtual_index_frac N HN) as Hf.
  rewrite (virtual_index_floor N HN) in Hf.
  destruct (Nat.eqb_spec N 1) as [E | E].
  - rewrite E. change (rank_floor 1) with 0%nat. simpl Z.to_nat.
    simpl Nat.min. simpl. unfold lerp. ring.
  - rewrite Nat2Z.id. replace (Z.to_nat (Z.of_nat (rank_floor N) + 1)) with (S (rank_floor N)) by lia.
    rewrite Nat.min_l by (pose proof (rank_floor_next N); lia).
    unfold lerp. rewrite Hf. reflexivity.
Qed.

(** ** Counting values below the quantile *)

Lemma filter_length_perm (f : Q -> bool) (l l' : list Q) :
  Permutation l l' ->
  List.length (filter f l) = List.length (filter f l').
Proof.
  induction 1 as [| x l l' _ IH | x y l | l l' l'' _ IH1 _ IH2]; simpl.
  - reflexivity.
  - destruct (f x); simpl; congruence.
  - destruct (f x), (f y); reflexivity.
  - congruence.
Qed.

Lemma filter_keeps_all (f : Q -> bool) (l : list Q) :
  Forall (fun x => f x = true) l -> filter f l = l.
Proof.
  induction 1 as [|x l Hx _ IH]; simpl; [reflexivity|].
  rewrite Hx, IH. reflexivity.
Qed.

Lemma filter_drops_all (f : Q -> bool) (l : list Q) :
  Forall (fun x => f x = false) l -> filter f l = [].
Proof.
  induction 1 as [|x l Hx _ IH]; simpl; [reflexivity|].
  rewrite Hx. exact IH.
Qed.

Lemma filter_length_bound (f : Q -> bool) (l : list Q) :
  (List.length (filter f l) <= List.length l)%nat.
Proof.
  induction l as [|x l IH]; simpl; [lia|]. destruct (f x); simpl; lia.
Qed.

(** At least [k+1] values of a sorted list are at most any [q] above its
    [k]-th value. *)
Lemma count_le_sorted (s : list Q) (k : nat) (q : Q) :
  StronglySorted Qle s -> (k < List.length s)%nat -> nth k s 0 <= q ->
  (S k <= count_le q s)%nat.
Proof.
  intros Hs Hk Hq. destruct (sorted_split s Hs k Hk) as [H1 _].
  unfold count_le. rewrite <- (firstn_skipn (S k) s) at 1.
  rewrite filter_app, length_app, filter_keeps_all.
  - rewrite length_firstn. lia.
  - eapply Forall_impl; [|exact H1]. intros x Hx. cbv beta in Hx.
    apply Qle_bool_iff. lra.
Qed.

(** At most [k] values of a sorted list are below any [q] that its [k]-th
    value reaches. *)
Lemma count_lt_sorted (s : list Q) (k : nat) (q : Q) :
  StronglySorted Qle s -> (k < List.length s)%nat -> q <= nth k s 0 ->
  (count_lt q s <= k)%nat.
Proof.
  intros Hs Hk Hq. destruct (sorted_split s Hs k Hk) as [_ H2].
  unfold count_lt. rewrite <- (firstn_skipn k s) at 1.
  rewrite filter_app, length_app, (filter_drops_all _ (skipn k s)).
  - pose proof (filter_length_bound (fun x => negb (Qle_bool q x)) (firstn k s)).
    rewrite length_firstn in H. simpl. lia.
  - eapply Forall_impl; [|exact H2]. intros x Hx. cbv beta in Hx.
    apply negb_false_iff, Qle_bool_iff. lra.
Qed.

Lemma lerp_between (a b t : Q) :
  a <= b -> 0 <= t -> t < 1 -> a <= lerp a b t /\ lerp a b t <= b.
Proof.
  intros Hab H0 H1. unfold lerp. split; nra.
Qed.

Lemma lerp_strict (a b t : Q) :
  a < b -> 0 <= t -> t < 1 -> lerp a b t < b /\ (0 < t -> a < lerp a b t).
Proof.
  intros Hab H0 H1. unfold lerp. split; [|intros Ht]; nra.
Qed.

(** ** The empirical quantile *)

Lemma spec_interpolate_95_lerp (s : list Q) :
  let N := List.length s in
  (1 <= N)%nat ->
  spec_interpolate_95 s
  == lerp (nth (rank_floor N) s 0)
          (nth (Nat.min (S (rank_floor N)) (N - 1)) s 0) (rank_frac N).
Proof.
  intros N HN. unfold spec_interpolate_95, lerp. fold N.
  destruct (Nat.eq_dec N 1) as [E | E].
  - rewrite E. change (rank_floor 1) with 0%nat.
    change (rank_frac 1) with (0 # 100). simpl Nat.min. ring.
  - rewrite Nat.min_l by (pose proof (rank_floor_next N); lia). ring.
Qed.

Lemma quantile_95_enclosed (xs : list Q) :
  xs <> [] ->
  let N := List.length xs in
  let s := sort xs in
  let j := rank_floor N in
  let j' := Nat.min (S j) (N - 1) in
  exists q,
    quantile_95 xs = Some q /\
    q == lerp (nth j s 0) (nth j' s 0) (rank_frac N) /\
    (j <= j')%nat /\ (j' < N)%nat /\
    nth j s 0 <= q /\ q <= nth j' s 0.
Proof.
  intros Hne N s j j'.
  destruct (quantile_95_value xs Hne) as (q & Eq & Hq).
  fold N s j j' in Hq. exists q.
  assert (HN : (1 <= N)%nat).
  { subst N. destruct xs; [congruence | simpl; lia]. }
  assert (Hj : (j <= j')%nat /\ (j' < N)%nat).
  { subst j'. destruct (Nat.eq_dec N 1) as [E | E].
    - subst j. rewrite E. change (rank_floor 1) with 0%nat. simpl. lia.
    - pose proof (rank_floor_next N) as Hn. fold j in Hn. lia. }
  destruct Hj as [Hj1 Hj2].
  destruct (rank_frac_bounds N) as [Hf0 Hf1].
  assert (Hle : nth j s 0 <= nth j' s 0).
  { apply sorted_nth_le; [apply sort_sorted | exact Hj1 |].
    subst s. rewrite sort_length. exact Hj2. }
  destruct (lerp_between _ _ _ Hle Hf0 Hf1) as [Hlo Hhi].
  repeat (split; [assumption|]). rewrite Hq. split; assumption.
Qed.

(** C5.  For a non-empty sequence of [N] risk gaps the script's
    [quantile_95] is the linear-interpolation 95th percentile: with [s]
    the values sorted, it is the interpolation between the order statistics
    of [s] around the rank [0.95 * (N-1)].  About 95 percent of the values
    are at most [q]: more than [0.95 * N - 0.95] values are [<= q] and at
    most [0.95 * N + 0.05] values are [< q]. *)
Theorem quantile_95_is_linear_percentile (risk_differences : list Q) :
  risk_differences <> [] ->
  let N := List.length risk_differences in
  exists q s,
    quantile_95 risk_differences = Some q /\
    Permutation s risk_differences /\ StronglySorted Qle s /\
    q == spec_interpolate_95 s /\
    (95 * N < 100 * count_le q risk_differences + 95)%nat /\
    (100 * count_lt q risk_differences <= 95 * N + 5)%nat.
Proof.
  intros Hne N.
  destruct (quantile_95_enclosed _ Hne)
    as (q & Eq & Hq & Hj1 & Hj2 & Hlo & Hhi).
  fold N in Hq, Hj1, Hj2, Hlo, Hhi.
  set (s := sort risk_differences) in *.
  set (j := rank_floor N) in *.
  set (j' := Nat.min (S j) (N - 1)) in *.
  assert (HL : List.length s = N) by apply sort_length.
  assert (HN : (1 <= N)%nat) by lia.
  exists q, s. split; [exact Eq|].
  split; [apply sort_perm|]. split; [apply sort_sorted|].
  split.
  { rewrite Hq. pose proof (spec_interpolate_95_lerp s) as Hs.
    rewrite HL in Hs. rewrite Hs by exact HN. reflexivity. }
  assert (Hcle : (S j <= count_le q risk_differences)%nat).
  { unfold count_le.
    rewrite <- (filter_length_perm _ _ _ (sort_perm risk_differences)).
    apply count_le_sorted; [apply sort_sorted | fold s; lia | exact Hlo]. }
  assert (Hclt : (count_lt q risk_differences <= j')%nat).
  { unfold count_lt.
    rewrite <- (filter_length_perm _ _ _ (sort_perm risk_differences)).
    apply count_lt_sorted; [apply sort_sorted | fold s; lia | exact Hhi]. }
  assert (Hj' : (j' <= S j)%nat) by (subst j'; lia).
  subst j. unfold rank_floor in *.
  pose proof (Nat.div_mod_eq (95 * (N - 1)) 100) as Hdm.
  pose proof (Nat.mod_upper_bound (95 * (N - 1)) 100 ltac:(lia)) as Hm.
  split; lia.
Qed.

Lemma quantile_95_is_linear_percentile_witness :
  exists q s,
    quantile_95 [1; 5; 3; 2; 4] = Some q /\
    Permutation s [1; 5; 3; 2; 4] /\ StronglySorted Qle s /\
    q == spec_interpolate_95 s /\
    (95 * 5 < 100 * count_le q ([1; 5; 3; 2; 4])%Q + 95)%nat /\
    (100 * count_lt q ([1; 5; 3; 2; 4])%Q <= 95 * 5 + 5)%nat.
Proof.
  apply (quantile_95_is_linear_percentile [1; 5; 3; 2; 4]). discriminate.
Defined.

Lemma sort_nth_In (xs : list Q) (k : nat) :
  (k < List.length xs)%nat -> In (nth k (sort xs) 0) xs.
Proof.
  intros Hk. apply (Permutation_in _ (sort_perm xs)).
  apply nth_In. now rewrite sort_length.
Qed.

(** C7 (as stated) fails: with the three gaps [0, 1/2, 1/2] (two trials
    that learn the same threshold, or take the fallback) the rank is [1.9],
    both neighbours are [1/2] and the quantile equals the maximum. *)
Lemma quantile_strictly_inside_counterexample :
  ~ (forall xs q lo hi,
        (2 <= List.length xs)%nat ->
        (exists x y, In x xs /\ In y xs /\ ~ x == y) ->
        quantile_95 xs = Some q ->
        np_min xs = Some lo -> np_max xs = Some hi ->
        lo < q /\ q < hi).
Proof.
  intros H.
  destruct (H [0; 1 # 2; 1 # 2] (400 # 800) 0 (1 # 2)) as [_ Hhi].
  - simpl. lia.
  - exists 0, (1 # 2). simpl. repeat split; auto. discriminate.
  - reflexivity.
  - reflexivity.
  - reflexivity.
  - revert Hhi. unfold Qlt. simpl. lia.
Qed.

(** The lower side fails too: of 21 gaps, twenty equal to [0] and one
    equal to [1/2], the rank is exactly [19] and the quantile is the
    minimum [0]. *)
Lemma quantile_equals_minimum_example :
  let xs := repeat 0 20 ++ [1 # 2] in
  exists q, quantile_95 xs = Some q /\ np_min xs = Some 0 /\
            np_max xs = Some (1 # 2) /\ q == 0.
Proof.
  eexists. split; [vm_compute; reflexivity|].
  split; [reflexivity|]. split; reflexivity.
Qed.

(** C7 (amended).  For every non-empty risk-gap sequence the empirical 95%
    quantile lies between the sequence's minimum and maximum, ends
    included; it lies strictly between them when the sequence has at least
    two values and its values are pairwise distinct. *)
Theorem quantile_95_between_min_and_max (risk_differences : list Q) :
  risk_differences <> [] ->
  exists q lo hi,
    quantile_95 risk_differences = Some q /\
    np_min risk_differences = Some lo /\
    np_max risk_differences = Some hi /\
    (lo <= q /\ q <= hi) /\
    ((2 <= List.length risk_differences)%nat ->
     pairwise_distinct risk_differences -> lo < q /\ q < hi).
Proof.
  intros Hne.
  destruct (quantile_95_enclosed _ Hne)
    as (q & Eq & Hq & Hj1 & Hj2 & Hlo & Hhi).
  set (N := List.length risk_differences) in *.
  set (s := sort risk_differences) in *.
  set (j := rank_floor N) in *.
  set (j' := Nat.min (S j) (N - 1)) in *.
  destruct (np_min_total _ Hne) as [lo Elo].
  assert (Ehi : exists hi, np_max risk_differences = Some hi).
  { destruct risk_differences; [congruence | simpl; eauto]. }
  destruct Ehi as [hi Ehi].
  destruct (np_min_spec _ _ Elo) as [_ Hmin].
  destruct (np_max_spec _ _ Ehi) as [_ Hmax].
  assert (Hin : forall k, (k < N)%nat -> lo <= nth k s 0 /\ nth k s 0 <= hi).
  { intros k Hk. pose proof (sort_nth_In risk_differences k Hk) as HIn.
    fold s in HIn. split; [apply Hmin | apply Hmax]; exact HIn. }
  exists q, lo, hi. repeat (split; [assumption|]). split.
  - destruct (Hin j ltac:(lia)) as [H1 _].
    destruct (Hin j' Hj2) as [_ H2]. split; lra.
  - intros HN Hd.
    pose proof (sort_distinct _ Hd) as Hss. fold s in Hss.
    assert (HL : List.length s = N) by apply sort_length.
    pose proof (rank_floor_next N HN) as Hnext. fold j in Hnext.
    assert (Ej' : j' = S j) by (subst j'; lia). rewrite Ej' in *.
    assert (Hlt : nth j s 0 < nth (S j) s 0).
    { apply strict_sorted_nth_lt; [exact Hss | lia | lia]. }
    destruct (rank_frac_bounds N) as [Hf0 Hf1].
    destruct (lerp_strict _ _ _ Hlt Hf0 Hf1) as [Hup Hdown].
    rewrite <- Hq in Hup, Hdown.
    destruct (Hin (S j) Hnext) as [_ H2]. split; [|lra].
    destruct (Nat.eq_dec j 0) as [E0 | E0].
    + pose proof (rank_frac_pos_at_0 N HN E0) as Hpos.
      specialize (Hdown Hpos). destruct (Hin j ltac:(lia)) as [H1 _]. lra.
    + assert (H0j : nth 0 s 0 < nth j s 0).
      { apply strict_sorted_nth_lt; [exact Hss | lia | lia]. }
      destruct (Hin 0%nat ltac:(lia)) as [H1 _]. lra.
Qed.

Lemma quantile_95_between_min_and_max_witness :
  exists q lo hi,
    quantile_95 [1 # 4; 1 # 8; 1 # 2] = Some q /\
    np_min [1 # 4; 1 # 8; 1 # 2] = Some lo /\
    np_max [1 # 4; 1 # 8; 1 # 2] = Some hi /\
    (lo <= q /\ q <= hi) /\ (lo < q /\ q < hi).
Proof.
  destruct (quantile_95_between_min_and_max [1 # 4; 1 # 8; 1 # 2])
    as (q & lo & hi & Eq & Elo & Ehi & Hin & Hstrict); [discriminate|].
  exists q, lo, hi. repeat (split; [assumption|]).
  apply Hstrict; [simpl; lia|].
  unfold pairwise_distinct.
  repeat constructor; rewrite ?InA_cons, InA_nil;
    intros H; decompose [or] H; try contradiction;
    match goal with E : _ == _ |- _ => vm_compute in E; discriminate E end.
Defined.

(** ** Lower bounds of the exponential *)

Section ExpEnclosure.
Local Open Scope R_scope.

Lemma fx_scale_pos : 0 < IZR fx_scale.
Proof. apply IZR_lt. reflexivity. Qed.

Lemma IZR_div_le (a b : Z) : (0 < b)%Z -> IZR (a / b) <= IZR a / IZR b.
Proof.
  intros Hb. assert (Hb' : 0 < IZR b) by now apply IZR_lt.
  apply Rmult_le_reg_r with (IZR b); [exact Hb'|].
  unfold Rdiv. rewrite Rmult_assoc, Rinv_l, Rmult_1_r by lra.
  rewrite <- mult_IZR. apply IZR_le.
  rewrite Z.mul_comm. apply Z.mul_div_le. exact Hb.
Qed.

Lemma fx_square_nonneg (a : Z) : (0 <= fx_square a)%Z.
Proof.
  unfold fx_square. apply Z.div_pos; [nia | reflexivity].
Qed.

Lemma fx_square_sound (a : Z) (x : R) :
  (0 <= a)%Z -> IZR a / IZR fx_scale <= exp x ->
  IZR (fx_square a) / IZR fx_scale <= exp (2 * x).
Proof.
  intros Ha Hx. pose proof fx_scale_pos as HD.
  assert (H0 : 0 <= IZR a / IZR fx_scale).
  { apply Rmult_le_pos; [now apply IZR_le|].
    left. now apply Rinv_0_lt_compat. }
  replace (2 * x) with (x + x) by ring. rewrite exp_plus.
  apply Rle_trans with ((IZR a / IZR fx_scale) * (IZR a / IZR fx_scale)).
  - unfold fx_square.
    apply Rmult_le_reg_r with (IZR fx_scale); [exact HD|].
    unfold Rdiv at 1. rewrite Rmult_assoc, Rinv_l, Rmult_1_r by lra.
    eapply Rle_trans; [apply IZR_div_le; reflexivity|].
    rewrite mult_IZR. right. field. lra.
  - apply Rmult_le_compat; assumption.
Qed.

Lemma fx_iter_sound (k : nat) (a : Z) (x : R) :
  (0 <= a)%Z -> IZR a / IZR fx_scale <= exp x ->
  (0 <= Nat.iter k fx_square a)%Z /\
  IZR (Nat.iter k fx_square a) / IZR fx_scale <= exp (2 ^ k * x).
Proof.
  intros Ha Hx. induction k as [|k [IH0 IH]].
  - simpl. rewrite Rmult_1_l. split; assumption.
  - split; [apply fx_square_nonneg|].
    change (Nat.iter (S k) fx_square a)
      with (fx_square (Nat.iter k fx_square a)).
    replace (2 ^ S k * x) with (2 * (2 ^ k * x)) by (simpl; ring).
    now apply fx_square_sound.
Qed.

(** [fx_exp_lower k num den / 2^80 <= exp (num/den)] as soon as the
    starting value [1 + (num/den)/2^k] is not negative. *)
Lemma fx_exp_lower_sound (k : nat) (num den : Z) :
  (0 < den)%Z ->
  (0 <= fx_scale + (num * fx_scale) / (den * 2 ^ Z.of_nat k))%Z ->
  IZR (fx_exp_lower k num den) / IZR fx_scale <= exp (IZR num / IZR den).
Proof.
  intros Hden Hstart. pose proof fx_scale_pos as HD.
  assert (Hden' : 0 < IZR den) by now apply IZR_lt.
  assert (Hpow : 0 < 2 ^ k) by (apply pow_lt; lra).
  assert (HpowZ : IZR (2 ^ Z.of_nat k) = 2 ^ k).
  { rewrite <- pow_IZR. reflexivity. }
  set (y := IZR num / IZR den / 2 ^ k).
  replace (IZR num / IZR den) with (2 ^ k * y)
    by (unfold y; field; lra).
  unfold fx_exp_lower. apply fx_iter_sound; [exact Hstart|].
  apply Rle_trans with (1 + y); [|apply exp_ineq1_le].
  rewrite plus_IZR. unfold Rdiv at 1. rewrite Rmult_plus_distr_r.
  rewrite Rinv_r by lra. apply Rplus_le_compat_l.
  apply Rmult_le_reg_r with (IZR fx_scale); [exact HD|].
  rewrite Rmult_assoc, Rinv_l, Rmult_1_r by lra.
  eapply Rle_trans.
  { apply IZR_div_le. apply Z.mul_pos_pos; [exact Hden|].
    apply Z.pow_pos_nonneg; lia. }
  rewrite !mult_IZR, HpowZ. unfold y. right. field. lra.
Qed.
End ExpEnclosure.

(** ** The theoretical bound *)

Lemma fx_check_upper : (16000 * fx_scale <= fx_exp_lower 24 9683 1000)%Z.
Proof. apply Z.leb_le. vm_compute. reflexivity. Qed.

Lemma fx_check_lower : (fx_scale <= 16000 * fx_exp_lower 24 (-968) 100)%Z.
Proof. apply Z.leb_le. vm_compute. reflexivity. Qed.

Section BoundValue.
Local Open Scope R_scope.

Lemma exp_9683_lower : 16000 <= exp (9683 / 1000).
Proof.
  pose proof fx_scale_pos as HD.
  eapply Rle_trans; [|apply (fx_exp_lower_sound 24 9683 1000)].
  - apply Rmult_le_reg_r with (IZR fx_scale); [exact HD|].
    unfold Rdiv. rewrite Rmult_assoc, Rinv_l, Rmult_1_r by lra.
    rewrite <- mult_IZR. apply IZR_le, fx_check_upper.
  - reflexivity.
  - apply Z.leb_le. vm_compute. reflexivity.
Qed.

Lemma exp_968_upper : exp (968 / 100) <= 16000.
Proof.
  pose proof fx_scale_pos as HD.
  assert (H : / 16000 <= exp (- (968 / 100))).
  { replace (- (968 / 100)) with (IZR (-968) / IZR 100) by (simpl; lra).
    eapply Rle_trans; [|apply (fx_exp_lower_sound 24 (-968) 100)].
    - apply Rmult_le_reg_r with (16000 * IZR fx_scale); [lra|].
      replace (/ 16000 * (16000 * IZR fx_scale)) with (IZR fx_scale)
        by (field; lra).
      replace (IZR (fx_exp_lower 24 (-968) 100) / IZR fx_scale
               * (16000 * IZR fx_scale))
        with (16000 * IZR (fx_exp_lower 24 (-968) 100)) by (field; lra).
      rewrite <- mult_IZR. apply IZR_le, fx_check_lower.
    - reflexivity.
    - apply Z.leb_le. vm_compute. reflexivity. }
  rewrite exp_Ropp in H. pose proof (exp_pos (968 / 100)) as Hp.
  apply Rinv_le_contravar in H; [|lra].
  rewrite !Rinv_inv in H. exact H.
Qed.

Lemma ln_16000_bounds : 968 / 100 <= ln 16000 <= 9683 / 1000.
Proof.
  assert (H16 : exp (ln 16000) = 16000) by (apply exp_ln; lra).
  split; apply Rnot_lt_le; intros Hlt; apply exp_increasing in Hlt;
    rewrite H16 in Hlt.
  - pose proof exp_968_upper. lra.
  - pose proof exp_9683_lower. lra.
Qed.

Lemma complexity_term_scenario :
  complexity_term 200 1 (5 / 100) = 1 + ln 16000.
Proof.
  unfold complexity_term, term1, term2, term3, np_log, np_e.
  replace (2 / (5 / 100)) with 40 by field.
  rewrite (ln_mult 2 (exp 1)) by (try apply exp_pos; lra).
  rewrite ln_exp.
  replace 16000 with (200 * 2 * 40) by lra.
  rewrite !ln_mult by lra. ring.
Qed.

Lemma sqrt_lower (a v : R) : 0 <= a -> a * a < v -> a < sqrt v.
Proof.
  intros Ha Hv. rewrite <- (sqrt_square a Ha).
  apply sqrt_lt_1_alt. split; [nra | exact Hv].
Qed.

Lemma sqrt_upper (a v : R) : 0 <= a -> 0 <= v -> v < a * a -> sqrt v < a.
Proof.
  intros Ha H0 Hv. rewrite <- (sqrt_square a Ha).
  apply sqrt_lt_1_alt. split; assumption.
Qed.

Lemma bound_val_scenario_enclosure :
  6536 / 10000 < bound_val 200 1 (5 / 100) < 6537 / 10000.
Proof.
  unfold bound_val, np_sqrt. rewrite complexity_term_scenario.
  destruct ln_16000_bounds as [Hlo Hhi].
  assert (H1 : 3268 / 10000 < sqrt (2 / 200 * (1 + ln 16000)))
    by (apply sqrt_lower; lra).
  assert (H2 : sqrt (2 / 200 * (1 + ln 16000)) < 32685 / 100000)
    by (apply sqrt_upper; lra).
  lra.
Qed.

Lemma program_constants :
  INR n_samples = 200 /\ IZR h = 1 /\ Q2R delta = 5 / 100.
Proof.
  split; [|split].
  - rewrite INR_IZR_INZ. reflexivity.
  - reflexivity.
  - unfold Q2R, delta. simpl. lra.
Qed.
End BoundValue.

(** ** Text output *)

Lemma append_length (s t : string) :
  String.length (s ++ t) = (String.length s + String.length t)%nat.
Proof. induction s as [|c s IH]; simpl; [reflexivity | now rewrite IH]. Qed.

Lemma append_chars (s t : string) :
  list_ascii_of_string (s ++ t)
  = list_ascii_of_string s ++ list_ascii_of_string t.
Proof. induction s as [|c s IH]; simpl; [reflexivity | now rewrite IH]. Qed.

Lemma append_assoc (s t u : string) :
  ((s ++ t) ++ u)%string = (s ++ (t ++ u))%string.
Proof. induction s as [|c s IH]; simpl; [reflexivity | now rewrite IH]. Qed.

Lemma digit_is_digit (d : Z) : (0 <= d < 10)%Z -> is_digit (digit d) = true.
Proof.
  intros Hd. unfold is_digit, digit.
  rewrite nat_ascii_embedding by lia.
  apply andb_true_iff. split; apply Nat.leb_le; lia.
Qed.

Lemma fixed_digits_length (k : nat) :
  forall z, String.length (fixed_digits k z) = k.
Proof.
  induction k as [|k IH]; intros z; simpl; [reflexivity|].
  rewrite append_length, IH. simpl. lia.
Qed.

Lemma fixed_digits_chars (k : nat) :
  forall z c, In c (list_ascii_of_string (fixed_digits k z)) ->
              is_digit c = true.
Proof.
  induction k as [|k IH]; intros z c; simpl; [tauto|].
  rewrite append_chars, in_app_iff. simpl. intros [H | [<- | []]].
  - now apply (IH (z / 10)%Z).
  - apply digit_is_digit. apply Z.mod_pos_bound. lia.
Qed.

Lemma format_5f_five_decimals (x : Q) : five_decimals (format_5f x).
Proof.
  unfold five_decimals, format_5f.
  set (m := round_half_even (Qabs x * 100000)).
  exists ((if Qle_bool 0 x then "" else "-")
          ++ str_of_N (Z.to_N (m / 100000)))%string,
         (fixed_digits 5 (m mod 100000)).
  split; [now rewrite append_assoc|].
  split; [apply fixed_digits_length | apply fixed_digits_chars].
Qed.

(** The printed number is the nearest multiple of [10^-5]. *)
Lemma round_half_even_near (x : Q) :
  inject_Z (round_half_even x) - (1 # 2) <= x /\
  x <= inject_Z (round_half_even x) + (1 # 2).
Proof.
  unfold round_half_even.
  pose proof (Qfloor_le x) as Hlo. pose proof (Qlt_floor x) as Hhi.
  rewrite inject_Z_plus in Hhi. change (inject_Z 1) with 1 in Hhi.
  destruct (Qcompare_spec (x - inject_Z (Qfloor x)) (1 # 2)) as [E | E | E];
    [destruct (Z.even (Qfloor x))|..];
    rewrite ?inject_Z_plus; change (inject_Z 1) with 1; split; lra.
Qed.

(** ** The bound: formula, value and independence from the simulation *)

Section BoundClaims.
Local Open Scope R_scope.

(** C2 (as stated) fails on its numeric part: for [n_samples = 200],
    [h = 1], [delta = 0.05] the bound is not [0.9244], not even within
    [0.25] of it. *)
Lemma bound_val_scenario_counterexample :
  ~ (Rabs (bound_val 200 1 (5 / 100) - 9244 / 10000) <= 1 / 4).
Proof.
  intros H. destruct bound_val_scenario_enclosure as [_ Hup].
  unfold Rabs in H.
  destruct (Rcase_abs (bound_val 200 1 (5 / 100) - 9244 / 10000)); lra.
Qed.

(** C2 (amended).  The bound equals
    [2*sqrt((2/n_samples)*(h*ln(n_samples) + h*ln(2e) + ln(2/delta)))]
    with [e] Euler's number and [ln] the natural logarithm; for the
    script's constants [n_samples = 200], [h = 1], [delta = 0.05] it is
    [2*sqrt((2/200)*(1*ln(200) + 1*ln(2e) + ln(2/0.05)))], which lies
    between [0.6536] and [0.6537]. *)
Theorem bound_val_formula_and_value :
  (forall n_samples h delta,
      bound_val n_samples h delta
      = 2 * sqrt ((2 / n_samples)
                  * (h * ln n_samples + h * ln (2 * exp 1)
                     + ln (2 / delta)))) /\
  bound_val (INR n_samples) (IZR h) (Q2R delta)
  = 2 * sqrt ((2 / 200)
              * (1 * ln 200 + 1 * ln (2 * exp 1) + ln (2 / (5 / 100)))) /\
  2 * sqrt ((2 / 200)
            * (1 * ln 200 + 1 * ln (2 * exp 1) + ln (2 / (5 / 100))))
  = 2 * sqrt ((1 + ln 16000) / 100) /\
  6536 / 10000 < bound_val (INR n_samples) (IZR h) (Q2R delta)
               < 6537 / 10000.
Proof.
  destruct program_constants as (En & Eh & Ed). rewrite En, Eh, Ed.
  split; [reflexivity|]. split; [reflexivity|]. split.
  - pose proof complexity_term_scenario as Hc.
    unfold complexity_term, term1, term2, term3, np_log, np_e in Hc.
    rewrite Hc. do 2 f_equal. field.
  - apply bound_val_scenario_enclosure.
Qed.

End BoundClaims.

(** * Further properties of the script *)

(** ** The trial does not depend on the order of the draws *)

Lemma filter_perm (f : Q -> bool) (l l' : list Q) :
  Permutation l l' -> Permutation (filter f l) (filter f l').
Proof.
  induction 1 as [| x l l' _ IH | x y l | l l' l'' _ IH1 _ IH2]; simpl.
  - apply perm_nil.
  - destruct (f x); [apply perm_skip|]; exact IH.
  - destruct (f x), (f y); try apply Permutation_refl. apply perm_swap.
  - eapply Permutation_trans; eassumption.
Qed.

Lemma np_min_perm (l l' : list Q) (m m' : Q) :
  Permutation l l' -> np_min l = Some m -> np_min l' = Some m' -> m == m'.
Proof.
  intros Hp E E'.
  destruct (np_min_spec _ _ E) as [HIn Hle].
  destruct (np_min_spec _ _ E') as [HIn' Hle'].
  apply Qle_antisym.
  - apply Hle. apply (Permutation_in _ (Permutation_sym Hp)). exact HIn'.
  - apply Hle'. apply (Permutation_in _ Hp). exact HIn.
Qed.

(** The ERM parameter and the risk gap of a trial depend on the values
    drawn, not on the order in which they were drawn. *)
Theorem trial_order_irrelevant (S_x S_x' : list Q) :
  Permutation S_x S_x' ->
  exists a a' d d',
    erm_a S_x = Some a /\ erm_a S_x' = Some a' /\ a == a' /\
    trial S_x = Some d /\ trial S_x' = Some d' /\ d == d'.
Proof.
  intros Hp.
  destruct (erm_a_total S_x) as [a Ea]. destruct (erm_a_total S_x') as [a' Ea'].
  destruct (trial_of_erm _ _ Ea) as (d & Ed & Hd).
  destruct (trial_of_erm _ _ Ea') as (d' & Ed' & Hd').
  exists a, a', d, d'.
  assert (Haa : a == a').
  { pose proof (filter_perm (fun x => Qle_bool 0 x) _ _ Hp) as Hpp.
    fold (positive_examples S_x) in Hpp. fold (positive_examples S_x') in Hpp.
    destruct (positive_examples S_x) as [|x t] eqn:E.
    - apply Permutation_nil in Hpp.
      rewrite (erm_a_empty _ E) in Ea. rewrite (erm_a_empty _ Hpp) in Ea'.
      injection Ea as <-. injection Ea' as <-. reflexivity.
    - assert (Hne' : positive_examples S_x' <> []).
      { intros E'. rewrite E' in Hpp. apply Permutation_sym in Hpp.
        apply Permutation_nil in Hpp. discriminate. }
      rewrite erm_a_nonempty in Ea by congruence.
      rewrite erm_a_nonempty in Ea' by exact Hne'.
      rewrite E in Ea. eapply np_min_perm; eassumption. }
  repeat (split; [assumption|]). rewrite Hd, Hd', Haa. reflexivity.
Qed.

Lemma trial_order_irrelevant_witness :
  exists a a' d d',
    erm_a [3 # 4; -1 # 2; 1 # 4] = Some a /\
    erm_a [1 # 4; 3 # 4; -1 # 2] = Some a' /\ a == a' /\
    trial [3 # 4; -1 # 2; 1 # 4] = Some d /\
    trial [1 # 4; 3 # 4; -1 # 2] = Some d' /\ d == d'.
Proof.
  apply (trial_order_irrelevant [3 # 4; -1 # 2; 1 # 4] [1 # 4; 3 # 4; -1 # 2]).
  apply Permutation_sym.
  apply (Permutation_cons_app [3 # 4; -1 # 2] [] (1 # 4)).
  apply Permutation_refl.
Defined.

(** ** More data can only lower the threshold *)

(** Enlarging a training set (all draws in [[-1,1]]) never raises the ERM
    parameter, hence never raises the risk gap. *)
Theorem erm_a_antitone_in_data (S_x more : list Q) :
  Forall in_range (S_x ++ more) ->
  exists a a' d d',
    erm_a S_x = Some a /\ erm_a (S_x ++ more) = Some a' /\ a' <= a /\
    trial S_x = Some d /\ trial (S_x ++ more) = Some d' /\ d' <= d.
Proof.
  intros Hr.
  destruct (erm_a_total S_x) as [a Ea].
  destruct (erm_a_total (S_x ++ more)) as [a' Ea'].
  destruct (trial_of_erm _ _ Ea) as (d & Ed & Hd).
  destruct (trial_of_erm _ _ Ea') as (d' & Ed' & Hd').
  exists a, a', d, d'.
  assert (Hle : a' <= a).
  { destruct (positive_examples S_x) as [|x t] eqn:E.
    - rewrite (erm_a_empty _ E) in Ea. injection Ea as <-.
      apply (erm_a_bounds _ _ Hr Ea').
    - rewrite erm_a_nonempty in Ea by congruence.
      apply np_min_spec in Ea as [HIn _].
      apply positive_examples_In in HIn as [HIn H0].
      assert (HIn' : In a (positive_examples (S_x ++ more))).
      { apply positive_examples_In. split; [|exact H0].
        apply in_or_app. now left. }
      rewrite erm_a_nonempty in Ea'
        by (intros E'; rewrite E' in HIn'; destruct HIn').
      apply np_min_spec in Ea' as [_ Hmin]. now apply Hmin. }
  repeat (split; [assumption|]).
  unfold Qdiv in Hd, Hd'. change (/ 2) with (1 # 2) in Hd, Hd'. lra.
Qed.

Lemma erm_a_antitone_in_data_witness :
  exists a a' d d',
    erm_a [3 # 4; -1 # 2] = Some a /\
    erm_a ([3 # 4; -1 # 2] ++ [1 # 4; -1 # 8]) = Some a' /\ a' <= a /\
    trial [3 # 4; -1 # 2] = Some d /\
    trial ([3 # 4; -1 # 2] ++ [1 # 4; -1 # 8]) = Some d' /\ d' <= d.
Proof.
  apply (erm_a_antitone_in_data [3 # 4; -1 # 2] [1 # 4; -1 # 8]).
  repeat constructor; simpl; discriminate.
Defined.

(** ** Why the empirical risk is zero *)

(** The true risk is the mass of [[0, a)] (line 31).  In every trial, with
    or without the fallback, no draw of the training set lies in [[0, a)]:
    the learned threshold misclassifies no training point, which is why
    line 35 sets the empirical risk to [0]. *)
Theorem no_draw_below_threshold (S_x : list Q) :
  exists a,
    erm_a S_x = Some a /\
    filter (fun x => Qle_bool 0 x && negb (Qle_bool a x)) S_x = [].
Proof.
  destruct (erm_a_total S_x) as [a Ea]. exists a. split; [exact Ea|].
  apply filter_drops_all. apply Forall_forall. intros x Hx.
  destruct (Qle_bool 0 x) eqn:B0; [|reflexivity].
  destruct (Qle_bool a x) eqn:Ba; [reflexivity|]. exfalso.
  apply Qle_bool_iff in B0.
  assert (HIn : In x (positive_examples S_x))
    by (apply positive_examples_In; split; assumption).
  rewrite erm_a_nonempty in Ea
    by (intros E; rewrite E in HIn; destruct HIn).
  apply np_min_spec in Ea as [_ Hmin]. specialize (Hmin _ HIn).
  apply Qle_bool_iff in Hmin. congruence.
Qed.

(** ** The samples of [np.random.uniform] *)

(** A call with [low <= high] on a well-formed source returns exactly
    [size] samples, each in [[low, high]] and below [high] when
    [low < high], and advances the source by [size] variates. *)
Theorem np_random_uniform_samples (low high : Q) (size : nat) (g : Rng) :
  source_ok g -> low <= high ->
  let '(S_x, g') := np_random_uniform low high size g in
  List.length S_x = size /\
  cursor g' = (cursor g + size)%nat /\ raw g' = raw g /\
  Forall (fun x => low <= x /\ x <= high /\ (low < high -> x < high)) S_x.
Proof.
  intros Hg Hlh. unfold np_random_uniform.
  split; [now rewrite length_map, length_seq|].
  split; [reflexivity|]. split; [reflexivity|].
  apply Forall_forall. intros x Hx. apply in_map_iff in Hx as (k & <- & _).
  destruct (Hg k) as [H0 H1].
  split; [nra|]. split; [nra|]. intros Hlt. nra.
Qed.

Lemma np_random_uniform_samples_witness :
  let '(S_x, g') := np_random_uniform (-1) 1 4 quarter_source in
  List.length S_x = 4%nat /\
  cursor g' = (cursor quarter_source + 4)%nat /\
  raw g' = raw quarter_source /\
  Forall (fun x => -1 <= x /\ x <= 1 /\ (-1 < 1 -> x < 1)) S_x.
Proof.
  apply (np_random_uniform_samples (-1) 1 4 quarter_source).
  - intros k. simpl. split; [discriminate | reflexivity].
  - discriminate.
Defined.

Lemma training_set_below_1 (size : nat) (g : Rng) (i : nat) (x : Q) :
  source_ok g -> In x (training_set size g i) -> x < 1.
Proof.
  intros Hg Hx. unfold training_set, np_random_uniform in Hx. simpl in Hx.
  apply in_map_iff in Hx as (k & <- & _). destruct (Hg k). lra.
Qed.

(** ** The gap [1/2] only comes from the fallback *)

(** Samples of [uniform(-1, 1)] are below [1], so a trial of the
    simulation returns the gap [1/2] exactly when its training set has no
    non-negative draw; otherwise the gap is below [1/2]. *)
Theorem half_gap_iff_fallback (size : nat) (g : Rng) (i : nat) :
  source_ok g ->
  exists d,
    trial (training_set size g i) = Some d /\
    (d == 1 # 2 <-> positive_examples (training_set size g i) = []) /\
    (positive_examples (training_set size g i) <> [] -> d < 1 # 2).
Proof.
  intros Hg. set (S_x := training_set size g i).
  destruct (erm_a_total S_x) as [a Ea].
  destruct (trial_of_erm _ _ Ea) as (d & Ed & Hd).
  unfold Qdiv in Hd. change (/ 2) with (1 # 2) in Hd.
  exists d. split; [exact Ed|].
  assert (Hlt : positive_examples S_x <> [] -> d < 1 # 2).
  { intros Hne. rewrite erm_a_nonempty in Ea by exact Hne.
    apply np_min_spec in Ea as [HIn _].
    apply positive_examples_In in HIn as [HIn _].
    pose proof (training_set_below_1 size g i a Hg HIn). lra. }
  split; [|exact Hlt]. split.
  - intros Hhalf. destruct (positive_examples S_x) as [|x t] eqn:E;
      [reflexivity|].
    exfalso. assert (d < 1 # 2) by (apply Hlt; discriminate). lra.
  - intros E. rewrite (erm_a_empty _ E) in Ea. injection Ea as <-. lra.
Qed.

Lemma half_gap_iff_fallback_witness :
  exists d,
    trial (training_set 3 quarter_source 1) = Some d /\
    (d == 1 # 2 <-> positive_examples (training_set 3 quarter_source 1) = []) /\
    (positive_examples (training_set 3 quarter_source 1) <> [] -> d < 1 # 2).
Proof.
  apply (half_gap_iff_fallback 3 quarter_source 1).
  intros k. simpl. split; [discriminate | reflexivity].
Defined.

(** ** Composition and locality of the simulation loop *)

Lemma simulation_loop_acc (n size : nat) :
  forall (g : Rng) (acc1 acc2 rd : list Q) (g' : Rng),
    simulation_loop n size g acc1 = Some (rd, g') ->
    exists tail,
      rd = acc1 ++ tail /\
      simulation_loop n size g acc2 = Some (acc2 ++ tail, g').
Proof.
  induction n as [|n IH]; intros g acc1 acc2 rd g' H.
  - simpl in H. injection H as <- <-. exists []. simpl.
    now rewrite !app_nil_r.
  - cbn [simulation_loop] in H |- *.
    destruct (np_random_uniform (-1) 1 size g) as [S_x g1].
    destruct (trial S_x) as [d|]; [|discriminate].
    destruct (IH g1 (acc1 ++ [d]) (acc2 ++ [d]) rd g' H) as (tail & -> & H2).
    exists (d :: tail). rewrite <- !app_assoc in *. simpl in *. auto.
Qed.

Lemma simulation_loop_add (n m size : nat) :
  forall (g : Rng) (acc : list Q),
    simulation_loop (n + m) size g acc
    = match simulation_loop n size g acc with
      | Some (acc', g') => simulation_loop m size g' acc'
      | None => None
      end.
Proof.
  induction n as [|n IH]; intros g acc; [reflexivity|].
  cbn [Nat.add simulation_loop].
  destruct (np_random_uniform (-1) 1 size g) as [S_x g1].
  destruct (trial S_x) as [d|]; [apply IH | reflexivity].
Qed.

(** Running [n + m] trials is running [n] trials and then [m] more from
    the generator state the first run left: the gaps of the long run are
    the gaps of the first run followed by those of the second. *)
Theorem simulate_add (n m size : nat) (g : Rng) :
  exists rd g1 rd' g2,
    simulate n size g = Some (rd, g1) /\
    simulate m size g1 = Some (rd', g2) /\
    simulate (n + m) size g = Some (rd ++ rd', g2).
Proof.
  destruct (simulate_length_aux n size g) as (rd & g1 & H1 & _).
  destruct (simulate_length_aux m size g1) as (rd' & g2 & H2 & _).
  exists rd, g1, rd', g2. split; [exact H1|]. split; [exact H2|].
  unfold simulate in *. rewrite simulation_loop_add, H1.
  destruct (simulation_loop_acc m size g1 [] rd rd' g2 H2) as (tail & E & H3).
  simpl in E. subst tail. exact H3.
Qed.

(** The [i]-th gap depends on the random source only through the [size]
    raw variates that trial [i] consumes: two sources with the same
    cursor that agree on that window give the same [i]-th gap, whatever
    they return elsewhere. *)
Theorem gap_depends_on_own_draws (n size : nat) (g g' : Rng) (i : nat) :
  (i < n)%nat ->
  cursor g = cursor g' ->
  (forall k, (cursor g + i * size <= k < cursor g + i * size + size)%nat ->
             raw g k = raw g' k) ->
  exists rd g1 rd' g1',
    simulate n size g = Some (rd, g1) /\
    simulate n size g' = Some (rd', g1') /\
    nth_error rd i = nth_error rd' i /\ nth_error rd i <> None.
Proof.
  intros Hi Hc Hraw.
  destruct (simulate_length_aux n size g) as (rd & g1 & H1 & _ & Hn1).
  destruct (simulate_length_aux n size g') as (rd' & g1' & H2 & _ & Hn2).
  exists rd, g1, rd', g1'. split; [exact H1|]. split; [exact H2|].
  destruct (Hn1 i Hi) as (d & Ed & Ht). destruct (Hn2 i Hi) as (d' & Ed' & Ht').
  assert (ES : training_set size g i = training_set size g' i).
  { unfold training_set, np_random_uniform. simpl. rewrite <- Hc.
    apply map_ext_in. intros k Hk. apply in_seq in Hk.
    rewrite (Hraw k) by lia. reflexivity. }
  rewrite ES in Ht. rewrite Ed, Ed'. split; congruence.
Qed.

Lemma gap_depends_on_own_draws_witness :
  exists rd g1 rd' g1',
    simulate 2 3 quarter_source = Some (rd, g1) /\
    simulate 2 3 (mkRng (fun k => if (k <? 3)%nat then 1 # 2 else 1 # 4) 0)
      = Some (rd', g1') /\
    nth_error rd 1 = nth_error rd' 1 /\ nth_error rd 1 <> None.
Proof.
  apply (gap_depends_on_own_draws 2 3 quarter_source
           (mkRng (fun k => if (k <? 3)%nat then 1 # 2 else 1 # 4) 0) 1).
  - lia.
  - reflexivity.
  - intros k Hk. simpl in Hk. simpl.
    destruct (Nat.ltb_spec k 3); [lia | reflexivity].
Defined.

(** ** The quantile does not depend on the order of the gaps *)

Lemma count_le_sorted_inv (s : list Q) (k : nat) (v : Q) :
  StronglySorted Qle s -> (k < List.length s)%nat -> v < nth k s 0 ->
  (count_le v s <= k)%nat.
Proof.
  intros Hs Hk Hv. destruct (sorted_split s Hs k Hk) as [_ H2].
  unfold count_le. rewrite <- (firstn_skipn k s) at 1.
  rewrite filter_app, length_app, (filter_drops_all _ (skipn k s)).
  - pose proof (filter_length_bound (fun x => Qle_bool x v) (firstn k s)) as H.
    rewrite length_firstn in H. simpl. lia.
  - eapply Forall_impl; [|exact H2]. intros x Hx. cbv beta in Hx.
    destruct (Qle_bool x v) eqn:B; [|reflexivity].
    apply Qle_bool_iff in B. lra.
Qed.

Lemma sorted_perm_nth_le (s s' : list Q) (k : nat) :
  StronglySorted Qle s -> StronglySorted Qle s' -> Permutation s s' ->
  (k < List.length s)%nat -> nth k s 0 <= nth k s' 0.
Proof.
  intros Hs Hs' Hp Hk.
  destruct (Qlt_le_dec (nth k s' 0) (nth k s 0)) as [Hlt | Hle]; [|exact Hle].
  exfalso.
  pose proof (count_le_sorted_inv s k _ Hs Hk Hlt) as H1.
  assert (Hk' : (k < List.length s')%nat)
    by (rewrite <- (Permutation_length Hp); exact Hk).
  pose proof (count_le_sorted s' k _ Hs' Hk' (Qle_refl _)) as H2.
  unfold count_le in H1, H2.
  rewrite (filter_length_perm _ _ _ Hp) in H1. lia.
Qed.

Lemma sort_perm_nth (xs ys : list Q) (k : nat) :
  Permutation xs ys -> (k < List.length xs)%nat ->
  nth k (sort xs) 0 == nth k (sort ys) 0.
Proof.
  intros Hp Hk.
  assert (Hss : Permutation (sort xs) (sort ys)).
  { eapply Permutation_trans; [apply sort_perm|].
    eapply Permutation_trans; [exact Hp | apply Permutation_sym, sort_perm]. }
  apply Qle_antisym.
  - apply sorted_perm_nth_le; try apply sort_sorted; [exact Hss|].
    now rewrite sort_length.
  - apply sorted_perm_nth_le; try apply sort_sorted.
    + now apply Permutation_sym.
    + rewrite sort_length, <- (Permutation_length Hp). exact Hk.
Qed.

(** The empirical quantile depends on the values of the risk gaps, not on
    the order of the trials that produced them. *)
Theorem quantile_95_order_irrelevant (xs ys : list Q) :
  xs <> [] -> Permutation xs ys ->
  exists q q',
    quantile_95 xs = Some q /\ quantile_95 ys = Some q' /\ q == q'.
Proof.
  intros Hne Hp.
  assert (Hne' : ys <> []).
  { intros E. subst ys. apply Permutation_sym, Permutation_nil in Hp.
    contradiction. }
  destruct (quantile_95_enclosed xs Hne) as (q & Eq & Hq & Hj1 & Hj2 & _).
  destruct (quantile_95_enclosed ys Hne') as (q' & Eq' & Hq' & _).
  rewrite <- (Permutation_length Hp) in Hq'.
  exists q, q'. split; [exact Eq|]. split; [exact Eq'|].
  rewrite Hq, Hq'. unfold lerp.
  rewrite (sort_perm_nth xs ys (rank_floor (List.length xs)) Hp) by lia.
  rewrite (sort_perm_nth xs ys
             (Nat.min (S (rank_floor (List.length xs)))
                      (List.length xs - 1)) Hp) by lia.
  reflexivity.
Qed.

Lemma quantile_95_order_irrelevant_witness :
  exists q q',
    quantile_95 [1 # 4; 1 # 8; 1 # 2] = Some q /\
    quantile_95 [1 # 2; 1 # 4; 1 # 8] = Some q' /\ q == q'.
Proof.
  apply (quantile_95_order_irrelevant [1 # 4; 1 # 8; 1 # 2]
                                      [1 # 2; 1 # 4; 1 # 8]).
  - discriminate.
  - apply Permutation_sym.
    apply (Permutation_cons_app [1 # 4; 1 # 8] [] (1 # 2)).
    apply Permutation_refl.
Defined.

(** ** Degenerate data *)

(** When all the risk gaps have the same value, the quantile is that
    value. *)
Theorem quantile_95_of_constant (xs : list Q) (v : Q) :
  xs <> [] -> (forall x, In x xs -> x == v) ->
  exists q, quantile_95 xs = Some q /\ q == v.
Proof.
  intros Hne Hall.
  destruct (quantile_95_enclosed xs Hne)
    as (q & Eq & _ & Hj1 & Hj2 & Hlo & Hhi).
  exists q. split; [exact Eq|].
  cbv zeta in Hj1, Hj2, Hlo, Hhi.
  assert (Hj : (rank_floor (List.length xs) < List.length xs)%nat) by lia.
  pose proof (Hall _ (sort_nth_In xs _ Hj)) as E1.
  pose proof (Hall _ (sort_nth_In xs _ Hj2)) as E2.
  rewrite E1 in Hlo. rewrite E2 in Hhi. apply Qle_antisym; assumption.
Qed.

Lemma quantile_95_of_constant_witness :
  exists q, quantile_95 [1 # 2; 2 # 4; 1 # 2] = Some q /\ q == 1 # 2.
Proof.
  apply (quantile_95_of_constant [1 # 2; 2 # 4; 1 # 2] (1 # 2)).
  - discriminate.
  - simpl. intros x H. decompose [or] H; try contradiction; subst x;
      reflexivity.
Defined.

(** ** The experiment never contradicts the bound *)

Lemma simulate_gaps_range (n size : nat) (g : Rng)
      (rd : list Q) (g' : Rng) :
  source_ok g -> simulate n size g = Some (rd, g') ->
  Forall (fun d => 0 <= d <= 1 # 2) rd.
Proof.
  intros Hg Hrun.
  destruct (simulate_length_aux n size g) as (rd0 & g0 & Hrun0 & Hlen & Hnth).
  rewrite Hrun in Hrun0. injection Hrun0 as <- <-.
  apply Forall_forall. intros d Hd.
  apply In_nth_error in Hd as [i Hi].
  assert (Hlt : (i < n)%nat).
  { rewrite <- Hlen. apply nth_error_Some. congruence. }
  destruct (Hnth i Hlt) as (d' & Hd' & Ht).
  assert (d' = d) by congruence. subst d'.
  destruct (erm_a_in_range_aux (training_set size g i)) as (a & Ea & Hb).
  { now apply training_set_in_range. }
  destruct (trial_of_erm _ _ Ea) as (d' & Ed' & Hd2).
  assert (d' = d) by congruence. subst d'.
  unfold Qdiv in Hd2. change (/ 2) with (1 # 2) in Hd2. lra.
Qed.

Lemma Q2R_half : Q2R (1 # 2) = (1 / 2)%R.
Proof. unfold Q2R. simpl. lra. Qed.

(** With the constants of the script ([n_samples = 200], [h = 1],
    [delta = 0.05]), for any positive number of trials and any well-formed
    random source, the empirical quantile lies in [[0, 1/2]] and is
    strictly below the theoretical bound, and so is every single risk
    gap. *)
Theorem quantile_and_gaps_below_bound
        (to_double : R -> Q) (n : nat) (g : Rng) :
  (0 < n)%nat -> source_ok g ->
  exists out q,
    main to_double n n_samples delta h g = Some out /\
    out_quantile_95 out = Some q /\
    0 <= q <= 1 # 2 /\
    (Q2R q < out_bound_val out)%R /\
    Forall (fun d => (Q2R d < out_bound_val out)%R)
           (out_risk_differences out).
Proof.
  intros Hn Hg.
  destruct (simulate_length_aux n n_samples g) as (rd & g' & Hrun & Hlen & _).
  pose proof (simulate_gaps_range _ _ _ _ _ Hg Hrun) as Hrange.
  assert (Hne : rd <> []) by (destruct rd; simpl in Hlen; [lia | congruence]).
  destruct (quantile_95_enclosed rd Hne)
    as (q & Eq & _ & Hj1 & Hj2 & Hlo & Hhi).
  cbv zeta in Hj1, Hj2, Hlo, Hhi.
  assert (Hq : 0 <= q <= 1 # 2).
  { rewrite Forall_forall in Hrange.
    assert (Hj : (rank_floor (List.length rd) < List.length rd)%nat) by lia.
    pose proof (Hrange _ (sort_nth_In rd _ Hj)) as H1.
    pose proof (Hrange _ (sort_nth_In rd _ Hj2)) as H2.
    cbv beta in H1, H2. lra. }
  destruct program_constants as (En & Eh & Ed).
  destruct bound_val_scenario_enclosure as [Hb _].
  unfold main. rewrite Hrun. cbv zeta.
  eexists. exists q.
  split; [reflexivity|].
  cbn [out_quantile_95 out_bound_val out_risk_differences].
  split; [exact Eq|]. split; [exact Hq|].
  rewrite En, Eh, Ed.
  assert (Hbelow : forall d, 0 <= d <= 1 # 2 ->
                   (Q2R d < bound_val 200 1 (5 / 100))%R).
  { intros d [_ Hd]. apply Qle_Rle in Hd. rewrite Q2R_half in Hd. lra. }
  split; [now apply Hbelow|].
  eapply Forall_impl; [|exact Hrange]. exact Hbelow.
Qed.

Lemma quantile_and_gaps_below_bound_witness :
  exists out q,
    main (fun _ => 0) 3 n_samples delta h quarter_source = Some out /\
    out_quantile_95 out = Some q /\
    0 <= q <= 1 # 2 /\
    (Q2R q < out_bound_val out)%R /\
    Forall (fun d => (Q2R d < out_bound_val out)%R)
           (out_risk_differences out).
Proof.
  apply (quantile_and_gaps_below_bound (fun _ => 0) 3 quarter_source).
  - lia.
  - intros k. simpl. split; [discriminate | reflexivity].
Defined.

(** ** Monotonicity of the bound *)

Section BoundMonotone.
Local Open Scope R_scope.

Lemma ln_le_mono (x y : R) : 0 < x -> x <= y -> ln x <= ln y.
Proof.
  intros Hx [Hlt | ->]; [left; now apply ln_increasing | right; reflexivity].
Qed.

Lemma ln_2e_pos : 0 < ln (2 * exp 1).
Proof.
  rewrite ln_mult by (try apply exp_pos; lra). rewrite ln_exp.
  pose proof ln_lt_2. lra.
Qed.

(** On the domain where the script's formula is a real number
    ([n_samples >= 1], [h >= 0], [0 < delta <= 2]: every logarithm has a
    positive argument and the square root a non-negative one), the bound
    grows with the VC dimension [h] and grows when the confidence
    parameter [delta] shrinks. *)
Theorem bound_val_monotone (n_samples h1 h2 delta1 delta2 : R) :
  1 <= n_samples -> 0 <= h1 -> h1 <= h2 ->
  0 < delta2 -> delta2 <= delta1 -> delta1 <= 2 ->
  0 < 2 / delta1 /\ 0 < 2 / delta2 /\
  0 <= (2 / n_samples) * complexity_term n_samples h1 delta1 /\
  0 <= (2 / n_samples) * complexity_term n_samples h2 delta2 /\
  bound_val n_samples h1 delta1 <= bound_val n_samples h2 delta2.
Proof.
  intros Hn Hh1 Hh Hd2 Hd Hd1'.
  assert (Hln : 0 <= ln n_samples).
  { rewrite <- ln_1. apply ln_le_mono; lra. }
  pose proof ln_2e_pos as H2e.
  assert (Hd1 : 0 < delta1) by lra.
  assert (Hp1 : 0 < 2 / delta1) by (apply Rdiv_lt_0_compat; lra).
  assert (Hp2 : 0 < 2 / delta2) by (apply Rdiv_lt_0_compat; lra).
  assert (Hdelta : ln (2 / delta1) <= ln (2 / delta2)).
  { apply ln_le_mono; [exact Hp1|].
    unfold Rdiv. apply Rmult_le_compat_l; [lra|].
    apply Rinv_le_contravar; assumption. }
  assert (Hdelta0 : 0 <= ln (2 / delta1)).
  { rewrite <- ln_1. apply ln_le_mono; [lra|].
    apply Rmult_le_reg_r with delta1; [exact Hd1|].
    unfold Rdiv. rewrite Rmult_assoc, Rinv_l by lra. lra. }
  assert (Hc : 0 <= 2 / n_samples).
  { left. apply Rdiv_lt_0_compat; lra. }
  assert (Hc1 : 0 <= complexity_term n_samples h1 delta1).
  { unfold complexity_term, term1, term2, term3, np_log, np_e. nra. }
  assert (Hc12 : complexity_term n_samples h1 delta1
                 <= complexity_term n_samples h2 delta2).
  { unfold complexity_term, term1, term2, term3, np_log, np_e. nra. }
  split; [exact Hp1|]. split; [exact Hp2|].
  split; [now apply Rmult_le_pos|].
  split; [apply Rmult_le_pos; [exact Hc | lra]|].
  unfold bound_val, np_sqrt.
  apply Rmult_le_compat_l; [lra|].
  apply sqrt_le_1_alt.
  apply Rmult_le_compat_l; [exact Hc | exact Hc12].
Qed.

Lemma bound_val_monotone_witness :
  0 < 2 / (1 / 10) /\ 0 < 2 / (5 / 100) /\
  0 <= (2 / 200) * complexity_term 200 1 (1 / 10) /\
  0 <= (2 / 200) * complexity_term 200 2 (5 / 100) /\
  bound_val 200 1 (1 / 10) <= bound_val 200 2 (5 / 100).
Proof.
  apply (bound_val_monotone 200 1 2 (1 / 10) (5 / 100)); lra.
Defined.
End BoundMonotone.

(** ** The quantile of a run of the script *)

Lemma rank_of_script_run :
  rank_floor n_simulations = 9499%nat /\
  Nat.min (S (rank_floor n_simulations)) (n_simulations - 1) = 9500%nat /\
  rank_frac n_simulations == 5 # 100.
Proof.
  assert (E : rank_floor n_simulations = 9499%nat) by (vm_compute; reflexivity).
  split; [exact E|]. split.
  - rewrite E. vm_compute. reflexivity.
  - vm_compute. reflexivity.
Qed.

(** For the [n_simulations = 10000] gaps of a run, the rank is [9499.05]:
    the reported quantile is the 9500th smallest gap plus [0.05] times the
    distance to the 9501st smallest one; at least 9500 gaps are at most
    the quantile and at most 9500 gaps are below it. *)
Theorem quantile_95_of_script_run (risk_differences : list Q) :
  List.length risk_differences = n_simulations ->
  exists q,
    quantile_95 risk_differences = Some q /\
    q == nth 9499 (sort risk_differences) 0
         + (5 # 100) * (nth 9500 (sort risk_differences) 0
                        - nth 9499 (sort risk_differences) 0) /\
    (9500 <= count_le q risk_differences)%nat /\
    (count_lt q risk_differences <= 9500)%nat.
Proof.
  intros Hlen.
  assert (Hne : risk_differences <> []).
  { intros E. subst risk_differences. discriminate Hlen. }
  destruct (quantile_95_enclosed _ Hne)
    as (q & Eq & Hq & _ & Hj2 & Hlo & Hhi).
  cbv zeta in Hq, Hj2, Hlo, Hhi. rewrite Hlen in Hq, Hj2, Hlo, Hhi.
  destruct rank_of_script_run as (Ej & Ej' & Ef).
  rewrite Ej' in Hq, Hhi. rewrite Ej in Hq, Hlo.
  unfold lerp in Hq. rewrite Ef in Hq.
  assert (HL : List.length (sort risk_differences) = n_simulations)
    by (rewrite sort_length; exact Hlen).
  assert (H9500 : (9500 < n_simulations)%nat)
    by (apply Nat.ltb_lt; vm_compute; reflexivity).
  assert (H9499 : (9499 < n_simulations)%nat)
    by (apply Nat.ltb_lt; vm_compute; reflexivity).
  exists q. split; [exact Eq|]. split.
  { rewrite Hq. ring. }
  split.
  - unfold count_le.
    rewrite <- (filter_length_perm _ _ _ (sort_perm risk_differences)).
    apply (count_le_sorted (sort risk_differences) 9499 q);
      [apply sort_sorted | rewrite HL; exact H9499 | exact Hlo].
  - unfold count_lt.
    rewrite <- (filter_length_perm _ _ _ (sort_perm risk_differences)).
    apply (count_lt_sorted (sort risk_differences) 9500 q);
      [apply sort_sorted | rewrite HL; exact H9500 | exact Hhi].
Qed.

Lemma quantile_95_of_script_run_witness :
  exists q,
    quantile_95 (repeat (1 # 4) n_simulations) = Some q /\
    q == nth 9499 (sort (repeat (1 # 4) n_simulations)) 0
         + (5 # 100) * (nth 9500 (sort (repeat (1 # 4) n_simulations)) 0
                        - nth 9499 (sort (repeat (1 # 4) n_simulations)) 0) /\
    (9500 <= count_le q (repeat (1 # 4) n_simulations))%nat /\
    (count_lt q (repeat (1 # 4) n_simulations) <= 9500)%nat.
Proof.
  apply (quantile_95_of_script_run (repeat (1 # 4) n_simulations)).
  apply repeat_length.
Defined.

(** * The text written to standard output *)

(** ** Reading printed digits back *)

Lemma digit_value_digit (d : Z) :
  (0 <= d < 10)%Z -> digit_value (digit d) = Some d.
Proof.
  intros Hd. unfold digit_value. rewrite (digit_is_digit d Hd).
  unfold digit. rewrite nat_ascii_embedding by lia. f_equal. lia.
Qed.

Lemma is_digit_not_point (c : ascii) :
  is_digit c = true -> Ascii.eqb c "." = false /\ Ascii.eqb c "-" = false.
Proof.
  intros H. split; apply Ascii.eqb_neq; intros ->; discriminate H.
Qed.

Lemma digits_value_app (s t : string) :
  forall acc,
    digits_value acc (s ++ t)
    = match digits_value acc s with
      | Some a => digits_value a t
      | None => None
      end.
Proof.
  induction s as [|c s IH]; intros acc; simpl; [reflexivity|].
  destruct (digit_value c); [apply IH | reflexivity].
Qed.

Lemma digits_value_fixed (k : nat) :
  forall z acc,
    digits_value acc (fixed_digits k z)
    = Some (acc * 10 ^ Z.of_nat k + z mod 10 ^ Z.of_nat k)%Z.
Proof.
  induction k as [|k IH]; intros z acc.
  - simpl. rewrite Z.mod_1_r. f_equal. lia.
  - cbn [fixed_digits]. rewrite digits_value_app, IH. cbn [digits_value].
    rewrite digit_value_digit by (apply Z.mod_pos_bound; lia).
    f_equal. rewrite Nat2Z.inj_succ, Z.pow_succ_r by lia.
    rewrite (Z.rem_mul_r z 10 (10 ^ Z.of_nat k)) by lia. ring.
Qed.

Lemma uint_chars_digits (d : Decimal.uint) :
  forall c, In c (list_ascii_of_string (NilEmpty.string_of_uint d)) ->
            is_digit c = true.
Proof.
  induction d; simpl; intros c Hc; try contradiction;
    destruct Hc as [<- | Hc]; try reflexivity; now apply IHd.
Qed.

Lemma digits_value_uint_acc (d : Decimal.uint) :
  forall acc,
    digits_value (Z.pos acc) (NilEmpty.string_of_uint d)
    = Some (Z.pos (Pos.of_uint_acc d acc)).
Proof.
  induction d; intros acc; cbn [NilEmpty.string_of_uint Pos.of_uint_acc];
    try reflexivity;
    (cbn [digits_value];
     match goal with
     | |- context [digit_value ?c] =>
         let v := eval vm_compute in (digit_value c) in
         change (digit_value c) with v
     end;
     rewrite <- IHd; f_equal; lia).
Qed.

Lemma digits_value_uint (d : Decimal.uint) :
  digits_value 0 (NilEmpty.string_of_uint d) = Some (Z.of_N (Pos.of_uint d)).
Proof.
  induction d; cbn [NilEmpty.string_of_uint Pos.of_uint];
    try reflexivity;
    (cbn [digits_value];
     match goal with
     | |- context [digit_value ?c] =>
         let v := eval vm_compute in (digit_value c) in
         change (digit_value c) with v
     end;
     first [exact IHd | apply digits_value_uint_acc]).
Qed.

Lemma str_of_N_value (n : N) :
  digits_value 0 (str_of_N n) = Some (Z.of_N n).
Proof.
  unfold str_of_N, NilZero.string_of_uint.
  rewrite <- (DecimalN.Unsigned.of_to n) at 2. unfold N.of_uint.
  destruct (N.to_uint n); try apply digits_value_uint. reflexivity.
Qed.

Lemma str_of_N_chars (n : N) :
  forall c, In c (list_ascii_of_string (str_of_N n)) -> is_digit c = true.
Proof.
  unfold str_of_N, NilZero.string_of_uint.
  destruct (N.to_uint n) eqn:E; try (rewrite <- E; apply uint_chars_digits).
  simpl. intros c [<- | []]. reflexivity.
Qed.

Lemma str_of_N_head (n : N) :
  exists c s, str_of_N n = String c s /\ is_digit c = true.
Proof.
  pose proof (str_of_N_chars n) as H.
  assert (Hne : str_of_N n <> EmptyString).
  { unfold str_of_N, NilZero.string_of_uint.
    destruct (N.to_uint n); discriminate. }
  destruct (str_of_N n) as [|c s]; [congruence|].
  exists c, s. split; [reflexivity|]. apply H. simpl. now left.
Qed.

Lemma split_at_point_digits (ip fp : string) :
  (forall c, In c (list_ascii_of_string ip) -> is_digit c = true) ->
  split_at_point (ip ++ String "." fp) = Some (ip, fp).
Proof.
  induction ip as [|c ip IH]; intros Hd; simpl; [reflexivity|].
  destruct (is_digit_not_point c) as [-> _]; [apply Hd; simpl; now left|].
  rewrite IH; [reflexivity|]. intros c' Hc'. apply Hd. simpl. now right.
Qed.

Lemma parse_unsigned_printed (n : N) (z : Z) :
  (0 <= z < 100000)%Z ->
  parse_unsigned_5f (str_of_N n ++ "." ++ fixed_digits 5 z)
  = Some ((Z.of_N n * 100000 + z) # 100000).
Proof.
  intros Hz. unfold parse_unsigned_5f.
  change ("." ++ fixed_digits 5 z)%string
    with (String "." (fixed_digits 5 z)).
  rewrite (split_at_point_digits _ _ (str_of_N_chars n)).
  rewrite fixed_digits_length.
  destruct (str_of_N_head n) as (c & s & E & _).
  assert (Hlen : (0 <? String.length (str_of_N n))%nat = true)
    by (rewrite E; reflexivity).
  rewrite Hlen. cbn [andb Nat.eqb].
  rewrite str_of_N_value, digits_value_fixed.
  change (10 ^ Z.of_nat 5)%Z with 100000%Z.
  rewrite Z.mod_small by exact Hz. reflexivity.
Qed.

Lemma round_half_even_nonneg (x : Q) : 0 <= x -> (0 <= round_half_even x)%Z.
Proof.
  intros Hx. unfold round_half_even.
  assert (H0 : (0 <= Qfloor x)%Z).
  { change 0%Z with (Qfloor 0). now apply Qfloor_resp_le. }
  destruct (Qcompare _ _); [destruct (Z.even _)|..]; lia.
Qed.

(** The text produced by [format_5f x] reads back as the multiple of
    [10^-5] nearest to [x]. *)
Lemma parse_format_5f (x : Q) :
  exists v,
    parse_5f (format_5f x) = Some v /\
    Qabs v == round_half_even (Qabs x * 100000) # 100000 /\
    Qabs (v - x) <= 1 # 200000.
Proof.
  set (m := round_half_even (Qabs x * 100000)).
  assert (Hm : (0 <= m)%Z).
  { apply round_half_even_nonneg. pose proof (Qabs_nonneg x). nra. }
  assert (Hmod : (0 <= m mod 100000 < 100000)%Z)
    by (apply Z.mod_pos_bound; lia).
  assert (Hdiv : (0 <= m / 100000)%Z) by (apply Z.div_pos; lia).
  assert (Hsum : (Z.of_N (Z.to_N (m / 100000)) * 100000 + m mod 100000 = m)%Z).
  { rewrite Z2N.id by exact Hdiv.
    pose proof (Z.div_mod m 100000 ltac:(lia)). lia. }
  pose proof (parse_unsigned_printed (Z.to_N (m / 100000)) _ Hmod) as Hp.
  rewrite Hsum in Hp.
  destruct (round_half_even_near (Qabs x * 100000)) as [Hlo Hhi].
  fold m in Hlo, Hhi.
  assert (Hm' : 0 <= m # 100000) by (unfold Qle; simpl; lia).
  assert (Einj : inject_Z m == (m # 100000) * 100000).
  { unfold Qeq, inject_Z. simpl. lia. }
  rewrite Einj in Hlo, Hhi.
  unfold format_5f. fold m.
  destruct (Qle_bool 0 x) eqn:B.
  - apply Qle_bool_iff in B. rewrite (Qabs_pos x B) in Hlo, Hhi.
    exists (m # 100000). split; [|split].
    + cbn [append]. unfold parse_5f.
      destruct (str_of_N_head (Z.to_N (m / 100000))) as (c & s & E & Hc).
      rewrite E in Hp |- *. cbn [append] in Hp |- *.
      destruct (is_digit_not_point c Hc) as [_ ->]. exact Hp.
    + now rewrite Qabs_pos.
    + apply Qabs_Qle_condition. split; lra.
  - assert (Hneg : x < 0).
    { destruct (Qlt_le_dec x 0) as [H | H]; [exact H|].
      apply Qle_bool_iff in H. congruence. }
    rewrite (Qabs_neg x) in Hlo, Hhi by lra.
    exists (- (m # 100000)). split; [|split].
    + change ("-" ++ str_of_N (Z.to_N (m / 100000)) ++ "."
              ++ fixed_digits 5 (m mod 100000))%string
        with (String "-" (str_of_N (Z.to_N (m / 100000)) ++ "."
                          ++ fixed_digits 5 (m mod 100000))).
      unfold parse_5f. change (Ascii.eqb "-" "-") with true. cbv iota.
      rewrite Hp. reflexivity.
    + rewrite Qabs_opp. now rewrite Qabs_pos.
    + apply Qabs_Qle_condition. split; lra.
Qed.

Lemma round_half_even_unique (x : Q) (n : Z) :
  inject_Z n - (1 # 2) < x -> x < inject_Z n + (1 # 2) ->
  round_half_even x = n.
Proof.
  intros Hlo Hhi. destruct (round_half_even_near x) as [Mlo Mhi].
  set (m := round_half_even x) in *.
  assert (H1 : inject_Z m < inject_Z (n + 1)).
  { rewrite inject_Z_plus. change (inject_Z 1) with 1. lra. }
  assert (H2 : inject_Z n < inject_Z (m + 1)).
  { rewrite inject_Z_plus. change (inject_Z 1) with 1. lra. }
  rewrite <- Zlt_Qlt in H1, H2. lia.
Qed.

Lemma format_5f_rounded (x : Q) (n : Z) :
  0 <= x -> round_half_even (Qabs x * 100000) = n ->
  format_5f x
  = (str_of_N (Z.to_N (n / 100000)) ++ "."
     ++ fixed_digits 5 (n mod 100000))%string.
Proof.
  intros Hx Hn. unfold format_5f. rewrite Hn.
  apply Qle_bool_iff in Hx. rewrite Hx. reflexivity.
Qed.

Lemma progress_line :
  ("Running " ++ str_of_nat n_simulations ++ " simulations...")%string
  = "Running 10000 simulations..."%string.
Proof. vm_compute. reflexivity. Qed.

Lemma n_simulations_pos : (0 < n_simulations)%nat.
Proof. apply Nat.ltb_lt. vm_compute. reflexivity. Qed.

(** ** A sharper value of the bound *)

Lemma fx_check_upper_30 :
  (16000 * fx_scale <= fx_exp_lower 30 9680346 1000000)%Z.
Proof. apply Z.leb_le. vm_compute. reflexivity. Qed.

Lemma fx_check_lower_30 :
  (fx_scale <= 16000 * fx_exp_lower 30 (-9680341) 1000000)%Z.
Proof. apply Z.leb_le. vm_compute. reflexivity. Qed.

Section SharperBound.
Local Open Scope R_scope.

Lemma Rabs_le_between (a b : R) : Rabs a <= b <-> - b <= a <= b.
Proof. unfold Rabs. destruct (Rcase_abs a); lra. Qed.

Lemma ln_16000_sharp :
  9680341 / 1000000 <= ln 16000 <= 9680346 / 1000000.
Proof.
  pose proof fx_scale_pos as HD.
  assert (Hup : 16000 <= exp (9680346 / 1000000)).
  { eapply Rle_trans; [|apply (fx_exp_lower_sound 30 9680346 1000000)].
    - apply Rmult_le_reg_r with (IZR fx_scale); [exact HD|].
      unfold Rdiv. rewrite Rmult_assoc, Rinv_l, Rmult_1_r by lra.
      rewrite <- mult_IZR. apply IZR_le, fx_check_upper_30.
    - reflexivity.
    - apply Z.leb_le. vm_compute. reflexivity. }
  assert (Hlow : / 16000 <= exp (- (9680341 / 1000000))).
  { replace (- (9680341 / 1000000)) with (IZR (-9680341) / IZR 1000000)
      by (simpl; lra).
    eapply Rle_trans; [|apply (fx_exp_lower_sound 30 (-9680341) 1000000)].
    - apply Rmult_le_reg_r with (16000 * IZR fx_scale); [lra|].
      replace (/ 16000 * (16000 * IZR fx_scale)) with (IZR fx_scale)
        by (field; lra).
      replace (IZR (fx_exp_lower 30 (-9680341) 1000000) / IZR fx_scale
               * (16000 * IZR fx_scale))
        with (16000 * IZR (fx_exp_lower 30 (-9680341) 1000000))
        by (field; lra).
      rewrite <- mult_IZR. apply IZR_le, fx_check_lower_30.
    - reflexivity.
    - apply Z.leb_le. vm_compute. reflexivity. }
  rewrite exp_Ropp in Hlow.
  pose proof (exp_pos (9680341 / 1000000)) as Hp.
  apply Rinv_le_contravar in Hlow; [|lra]. rewrite !Rinv_inv in Hlow.
  assert (H16 : exp (ln 16000) = 16000) by (apply exp_ln; lra).
  split; apply Rnot_lt_le; intros Hlt; apply exp_increasing in Hlt;
    rewrite H16 in Hlt; lra.
Qed.

Lemma bound_val_scenario_sharp :
  6536158 / 10000000 < bound_val 200 1 (5 / 100) < 6536161 / 10000000.
Proof.
  unfold bound_val, np_sqrt. rewrite complexity_term_scenario.
  destruct ln_16000_sharp as [Hlo Hhi].
  assert (H1 : 3268079 / 10000000 < sqrt (2 / 200 * (1 + ln 16000)))
    by (apply sqrt_lower; lra).
  assert (H2 : sqrt (2 / 200 * (1 + ln 16000)) < 32680805 / 100000000)
    by (apply sqrt_upper; lra).
  lra.
Qed.

Lemma Qabs_diff_Rabs (x y c : Q) :
  (Qabs (x - y) <= c)%Q -> Rabs (Q2R x - Q2R y) <= Q2R c.
Proof.
  intros H. apply Qabs_Qle_condition in H as [H1 H2].
  apply Qle_Rle in H1, H2. rewrite Q2R_minus in H1, H2.
  rewrite Q2R_opp in H1. apply Rabs_le_between. lra.
Qed.
End SharperBound.

(** ** Standard output of the script *)

(** C9.  Whatever the random source, the script runs to the end and its
    standard output is five lines: the progress announcement, a separator
    of thirty dashes, the line [Empirical 95% Quantile: <value>], the line
    [Theoretical PAC Bound:  <value>] and the separator again.  Each value
    is printed with exactly five decimals and is the printed number's
    nearest multiple of [10^-5]: read back, it is within [10^-5 / 2] of the
    floating-point number printed, hence within [tol_q + 10^-5 / 2] of the
    exact quantile of the run and within [tol_b + 10^-5 / 2] of the real
    value of the bound, where [tol_q] and [tol_b] bound the error of the
    two floating-point results on this run.  When the bound is computed to within
    [5 * 10^-7], its line is [Theoretical PAC Bound:  0.65362]. *)
Theorem program_stdout
        (np_percentile_float : list Q -> Q) (to_double : R -> Q)
        (tol_q : Q) (tol_b : R) (g : Rng) :
  (forall rd g1 q,
      simulate n_simulations n_samples g = Some (rd, g1) ->
      np_percentile rd 95 = Some q ->
      Qabs (np_percentile_float rd - q) <= tol_q) ->
  (Rabs (Q2R (to_double (bound_val (INR n_samples) (IZR h) (Q2R delta)))
         - bound_val (INR n_samples) (IZR h) (Q2R delta)) <= tol_b)%R ->
  exists risk_differences g' q v_quantile v_bound p_quantile p_bound,
    simulate n_simulations n_samples g = Some (risk_differences, g') /\
    quantile_95 risk_differences = Some q /\
    program np_percentile_float to_double g =
      Some [ "Running 10000 simulations..."%string;
             "------------------------------"%string;
             ("Empirical 95% Quantile: " ++ v_quantile)%string;
             ("Theoretical PAC Bound:  " ++ v_bound)%string;
             "------------------------------"%string ] /\
    five_decimals v_quantile /\ five_decimals v_bound /\
    parse_5f v_quantile = Some p_quantile /\
    Qabs (p_quantile - q) <= tol_q + (1 # 200000) /\
    parse_5f v_bound = Some p_bound /\
    (Rabs (Q2R p_bound - bound_val (INR n_samples) (IZR h) (Q2R delta))
     <= tol_b + 1 / 200000)%R /\
    ((tol_b <= 1 / 2000000)%R -> v_bound = "0.65362"%string).
Proof.
  intros Hq Hb.
  destruct (simulate_length_aux n_simulations n_samples g)
    as (rd & g' & Hrun & Hlen & _).
  assert (Hne : rd <> []).
  { pose proof n_simulations_pos. destruct rd; simpl in Hlen;
      [lia | congruence]. }
  destruct (quantile_95_value rd Hne) as (q & Eq & _).
  specialize (Hq rd g' q Hrun Eq).
  set (B := bound_val (INR n_samples) (IZR h) (Q2R delta)) in *.
  set (qf := np_percentile_float rd) in *.
  set (bf := to_double B) in *.
  destruct (parse_format_5f qf) as (pq & Epq & _ & Hpq).
  destruct (parse_format_5f bf) as (pb & Epb & _ & Hpb).
  exists rd, g', q, (format_5f qf), (format_5f bf), pq, pb.
  split; [exact Hrun|]. split; [exact Eq|]. split.
  { unfold program. rewrite Hrun, progress_line. reflexivity. }
  split; [apply format_5f_five_decimals|].
  split; [apply format_5f_five_decimals|].
  split; [exact Epq|]. split.
  { apply Qabs_Qle_condition in Hq as [Hq1 Hq2].
    apply Qabs_Qle_condition in Hpq as [Hp1 Hp2].
    apply Qabs_Qle_condition. split; lra. }
  split; [exact Epb|].
  apply Qabs_diff_Rabs in Hpb.
  replace (Q2R (1 # 200000)) with (1 / 200000)%R in Hpb
    by (unfold Q2R; simpl; lra).
  apply Rabs_le_between in Hpb. apply Rabs_le_between in Hb.
  split; [apply Rabs_le_between; lra|].
  intros Htol.
  destruct program_constants as (En & Eh & Ed).
  destruct bound_val_scenario_sharp as [Blo Bhi].
  assert (EB : B = bound_val 200 1 (5 / 100)%R)
    by (unfold B; rewrite En, Eh, Ed; reflexivity).
  rewrite EB in Hb.
  assert (Hlo : 6536153 # 10000000 <= bf).
  { apply Rle_Qle. replace (Q2R (6536153 # 10000000))
      with (6536153 / 10000000)%R by (unfold Q2R; simpl; lra).
    lra. }
  assert (Hhi : bf <= 6536166 # 10000000).
  { apply Rle_Qle. replace (Q2R (6536166 # 10000000))
      with (6536166 / 10000000)%R by (unfold Q2R; simpl; lra).
    lra. }
  assert (H0 : 0 <= bf) by lra.
  rewrite (format_5f_rounded bf 65362 H0); [vm_compute; reflexivity|].
  apply round_half_even_unique; rewrite (Qabs_pos bf H0);
    change (inject_Z 65362) with (65362 # 1); lra.
Qed.

Lemma program_stdout_witness :
  exists risk_differences g' q v_quantile v_bound p_quantile p_bound,
    simulate n_simulations n_samples quarter_source
      = Some (risk_differences, g') /\
    quantile_95 risk_differences = Some q /\
    program (fun xs => match np_percentile xs 95 with
                       | Some q => q
                       | None => 0
                       end)
            (fun _ => 653616 # 1000000) quarter_source =
      Some [ "Running 10000 simulations..."%string;
             "------------------------------"%string;
             ("Empirical 95% Quantile: " ++ v_quantile)%string;
             ("Theoretical PAC Bound:  " ++ v_bound)%string;
             "------------------------------"%string ] /\
    five_decimals v_quantile /\ five_decimals v_bound /\
    parse_5f v_quantile = Some p_quantile /\
    Qabs (p_quantile - q) <= 0 + (1 # 200000) /\
    parse_5f v_bound = Some p_bound /\
    (Rabs (Q2R p_bound - bound_val (INR n_samples) (IZR h) (Q2R delta))
     <= 1 / 2000000 + 1 / 200000)%R /\
    v_bound = "0.65362"%string.
Proof.
  destruct (program_stdout
              (fun xs => match np_percentile xs 95 with
                         | Some q => q
                         | None => 0
                         end)
              (fun _ => 653616 # 1000000) 0 (1 / 2000000)%R quarter_source)
    as (rd & g' & q & vq & vb & pq & pb & H).
  - intros xs g1 q _ E. rewrite E.
    apply Qabs_Qle_condition. split; lra.
  - destruct program_constants as (En & Eh & Ed). rewrite En, Eh, Ed.
    destruct bound_val_scenario_sharp as [Blo Bhi].
    replace (Q2R (653616 # 1000000)) with (653616 / 1000000)%R
      by (unfold Q2R; simpl; lra).
    apply Rabs_le_between. lra.
  - exists rd, g', q, vq, vb, pq, pb.
    decompose [and] H. repeat (split; [assumption|]).
    match goal with Hf : (_ <= _)%R -> vb = _ |- _ => apply Hf end. lra.
Defined.
